(** * Sliding-window counter: a shallow embedding of [counter.go]

    The development follows the Go source function by function.  Go values
    are embedded as follows.

    - [int64] and [time.Duration] are integers of [Z]; every arithmetic
      operation of the source is followed by [wrap64], the two's-complement
      wrap-around of the Go specification.
    - [time.Time] is the number of nanoseconds elapsed since the zero time
      (January 1, year 1, 00:00:00 UTC), the origin [Time.Truncate] counts
      from, without the bounds of the representation of [time.Time].
      Monotonic clock readings play no role: [Truncate] strips them and the
      instants kept in a window come from [Truncate].
    - [float64] is IEEE-754 binary64, through the executable specification
      [SpecFloat] of the standard library (precision 53, [emax] 1024).
    - A panic is an explicit outcome: operations that can panic return a
      [result].
    - The mutex [mu] serialises the public operations: each of them is
      embedded as one atomic state transformer. *)

From Stdlib Require Import ZArith Lia Bool List.
From Stdlib Require Import Floats.SpecFloat.
Import ListNotations.
Open Scope Z_scope.

(** ** Machine integers *)

Definition int64 := Z.

Definition minInt64 : Z := - 2 ^ 63.
Definition maxInt64 : Z := 2 ^ 63 - 1.

Definition in_int64 (z : Z) : Prop := minInt64 <= z <= maxInt64.

Definition in_int64b (z : Z) : bool := (minInt64 <=? z) && (z <=? maxInt64).

(** Two's-complement wrap-around to 64 bits. *)
Definition wrap64 (z : Z) : int64 := (z + 2 ^ 63) mod 2 ^ 64 - 2 ^ 63.

Definition int64_add (a b : int64) : int64 := wrap64 (a + b).
Definition int64_sub (a b : int64) : int64 := wrap64 (a - b).
Definition int64_neg (a : int64) : int64 := wrap64 (- a).

(** ** Panics *)

Inductive panic : Set :=
| DivideByZero          (* runtime error: integer divide by zero *)
| CloseOfNilChannel     (* panic: close of nil channel *)
| CloseOfClosedChannel. (* panic: close of closed channel *)

Inductive result (A : Type) : Type :=
| Ok (a : A)
| Panic (p : panic).

Arguments Ok {A} a.
Arguments Panic {A} p.

Definition bind {A B : Type} (r : result A) (k : A -> result B) : result B :=
  match r with
  | Ok a => k a
  | Panic p => Panic p
  end.

Notation "x <- r ;; k" := (bind r (fun x => k))
  (at level 61, r at next level, right associativity).

(** Integer division of Go: truncated toward zero, panics on a zero
    divisor; [minInt64 / -1] wraps to [minInt64]. *)
Definition int64_div (a b : int64) : result int64 :=
  if b =? 0 then Panic DivideByZero else Ok (wrap64 (Z.quot a b)).

(** ** Package [time] *)

Definition Duration := int64.
Definition Time := Z.

Definition Nanosecond : Duration := 1.
Definition Second : Duration := 1000000000 * Nanosecond.

Definition minDuration : Duration := minInt64.
Definition maxDuration : Duration := maxInt64.

(** [t.Sub(u)]: the duration [t - u], or the minimum or maximum duration
    when [t - u] does not fit. *)
Definition Time_Sub (t u : Time) : Duration :=
  if t - u <? minDuration then minDuration
  else if maxDuration <? t - u then maxDuration
  else t - u.

(** [t.Add(d)]. *)
Definition Time_Add (t : Time) (d : Duration) : Time := t + d.

(** [t.Truncate(d)]: [t] rounded down to a multiple of [d] since the zero
    time; [t] itself when [d <= 0]. *)
Definition Time_Truncate (t : Time) (d : Duration) : Time :=
  if d <=? 0 then t else Time_Add t (- (t mod d)).

(** ** [float64] *)

Definition float64 := spec_float.

Definition prec : Z := 53.
Definition emax : Z := 1024.

(** The conversion [float64(x)] of an integer: round to nearest, ties to
    even. *)
Definition int64_to_float64 (x : int64) : float64 :=
  binary_normalize prec emax x 0 false.

Definition float64_mul : float64 -> float64 -> float64 := SFmul prec emax.
Definition float64_div : float64 -> float64 -> float64 := SFdiv prec emax.

(** The integer part of a finite float, fraction discarded. *)
Definition float64_trunc (f : float64) : option Z :=
  match f with
  | S754_zero _ => Some 0
  | S754_finite s m e =>
      let a := Z.shiftl (Z.pos m) e in
      Some (if s then - a else a)
  | S754_infinity _ => None
  | S754_nan => None
  end.

(** The conversion [int64(f)] discards the fraction.  When the value does
    not fit (or is not a number) the Go specification leaves the result to
    the implementation, which a [Platform] fixes. *)
Class Platform : Type :=
  { float64_to_int64_unrepresentable : float64 -> int64 }.

Definition float64_to_int64 {P : Platform} (f : float64) : int64 :=
  match float64_trunc f with
  | Some z => if in_int64b z then z else float64_to_int64_unrepresentable f
  | None => float64_to_int64_unrepresentable f
  end.

(** On amd64 the conversion instruction yields the "integer indefinite"
    value, [minInt64], for every operand that does not fit. *)
Definition amd64 : Platform :=
  {| float64_to_int64_unrepresentable := fun _ => minInt64 |}.

(** The value of a finite float as a fraction [num / den], [den > 0]. *)
Definition float64_num (f : float64) : Z :=
  match f with
  | S754_finite s m e =>
      let n := Z.pos m * 2 ^ Z.max e 0 in if s then - n else n
  | _ => 0
  end.

Definition float64_den (f : float64) : Z :=
  match f with
  | S754_finite _ _ e => 2 ^ Z.max (- e) 0
  | _ => 1
  end.

(** ** Channels *)

(** A [chan struct{}] on which nothing is ever sent: it is nil, open or
    closed. *)
Inductive Chan : Set :=
| NilChan
| OpenChan
| ClosedChan.

(** A receive can proceed only on a closed channel (there is no sender); on
    a nil channel it blocks forever. *)
Definition chan_recv_ready (ch : Chan) : bool :=
  match ch with
  | ClosedChan => true
  | NilChan | OpenChan => false
  end.

Definition chan_close (ch : Chan) : result Chan :=
  match ch with
  | NilChan => Panic CloseOfNilChannel
  | ClosedChan => Panic CloseOfClosedChannel
  | OpenChan => Ok ClosedChan
  end.

(** ** The window backends

    [counter.go] uses the interface [Window], the factory type [NewWindow],
    [StopFunc] and the constructor [NewLocalWindow]; their declarations are
    in a file of the package that is not among the sources under study. *)

(** Modelled from the spec: the method set of the interface [Window] (the
    window backend contract): [Start], [Count], [AddCount], [Reset] and
    [Sync], here as functions on the state of a backend of type [T]. *)
Record WindowMethods (T : Type) : Type := mkWindowMethods
  { m_Start : T -> Time;
    m_Count : T -> int64;
    m_AddCount : int64 -> T -> T;
    m_Reset : Time -> int64 -> T -> T;
    m_Sync : Time -> T -> T }.

Arguments mkWindowMethods {T}.
Arguments m_Start {T}.
Arguments m_Count {T}.
Arguments m_AddCount {T}.
Arguments m_Reset {T}.
Arguments m_Sync {T}.

(** An interface value: a dynamic type, its method table and the state of
    the object. *)
Record Window : Type := mkWindow
  { wtype : Type;
    wmethods : WindowMethods wtype;
    wstate : wtype }.

Definition Start (w : Window) : Time := m_Start (wmethods w) (wstate w).

Definition Count (w : Window) : int64 := m_Count (wmethods w) (wstate w).

Definition AddCount (n : int64) (w : Window) : Window :=
  mkWindow (wtype w) (wmethods w) (m_AddCount (wmethods w) n (wstate w)).

Definition Reset (s : Time) (c : int64) (w : Window) : Window :=
  mkWindow (wtype w) (wmethods w) (m_Reset (wmethods w) s c (wstate w)).

Definition Sync (now : Time) (w : Window) : Window :=
  mkWindow (wtype w) (wmethods w) (m_Sync (wmethods w) now (wstate w)).

(** What the contract promises of a backend: [Reset] replaces start and
    count, and neither [AddCount] nor [Sync] moves the start. *)
Record WindowLaws (T : Type) (M : WindowMethods T) : Prop := mkWindowLaws
  { Start_Reset : forall s c x, m_Start M (m_Reset M s c x) = s;
    Count_Reset : forall s c x, m_Count M (m_Reset M s c x) = c;
    Start_AddCount : forall n x, m_Start M (m_AddCount M n x) = m_Start M x;
    Start_Sync : forall now x, m_Start M (m_Sync M now x) = m_Start M x }.

Definition lawful (w : Window) : Prop := WindowLaws (wtype w) (wmethods w).

(** Modelled from the spec: [StopFunc], the stop/cleanup function returned
    with a window, releases background resources of the backend: a
    transformer of the state [World] of those resources. *)
Definition StopFunc (World : Type) : Type := World -> World.

(** Modelled from the spec: [NewWindow], the window-factory capability that
    produces a [(Window, stopFn)] pair. *)
Definition NewWindow (World : Type) : Type := unit -> Window * StopFunc World.

(** Modelled from the spec: [LocalWindow], an in-process bucket with a start
    time and an integer count; all operations are plain field reads and
    writes and [Sync] is a no-op.  A new local window has count 0 and the
    zero start. *)
Record LocalWindow : Set := mkLocalWindow
  { start : Time;
    count : int64 }.

Definition LocalWindow_Start (w : LocalWindow) : Time := start w.

Definition LocalWindow_Count (w : LocalWindow) : int64 := count w.

Definition LocalWindow_AddCount (n : int64) (w : LocalWindow) : LocalWindow :=
  mkLocalWindow (start w) (int64_add (count w) n).

Definition LocalWindow_Reset (s : Time) (c : int64) (w : LocalWindow)
  : LocalWindow :=
  mkLocalWindow s c.

Definition LocalWindow_Sync (now : Time) (w : LocalWindow) : LocalWindow := w.

Definition LocalWindow_methods : WindowMethods LocalWindow :=
  mkWindowMethods LocalWindow_Start LocalWindow_Count LocalWindow_AddCount
    LocalWindow_Reset LocalWindow_Sync.

(** A [*LocalWindow] seen through the interface. *)
Definition LocalWindow_iface (w : LocalWindow) : Window :=
  mkWindow LocalWindow LocalWindow_methods w.

Definition NewLocalWindow {World : Type} (_ : unit)
  : LocalWindow * StopFunc World :=
  (mkLocalWindow 0 0, fun world => world).

(** The factory of local windows, as a [NewWindow]. *)
Definition NewLocalWindow_factory {World : Type} : NewWindow World :=
  fun _ => let (w, stop) := NewLocalWindow tt in (LocalWindow_iface w, stop).

Definition is_LocalWindow (w : Window) : Prop :=
  exists l : LocalWindow, w = LocalWindow_iface l.

(** ** The counter *)

Record Counter : Type := mkCounter
  { size : Duration;
    curr : Window;
    prev : Window;
    syncInterval : Duration;
    syncStopCh : Chan }.

Definition set_curr (w : Window) (c : Counter) : Counter :=
  mkCounter (size c) w (prev c) (syncInterval c) (syncStopCh c).

Definition set_prev (w : Window) (c : Counter) : Counter :=
  mkCounter (size c) (curr c) w (syncInterval c) (syncStopCh c).

Definition set_syncStopCh (ch : Chan) (c : Counter) : Counter :=
  mkCounter (size c) (curr c) (prev c) (syncInterval c) ch.

(** What [NewCounter] asks of the runtime. *)
Inductive RuntimeEffect : Set :=
| GoSync (interval : Duration)  (* go c.Sync(interval) *)
| SetFinalizer.                 (* runtime.SetFinalizer(c, ...) *)

(** [NewCounter]: the fields [size], [curr], [prev] and [syncInterval] are
    set by the composite literal; [syncStopCh] is not, and holds the zero
    value of its type, the nil channel. *)
Definition NewCounter {World : Type} (size : Duration)
    (newWindow : NewWindow World) (syncInterval : Duration)
  : Counter * StopFunc World * list RuntimeEffect :=
  let (currWin, currStop) := newWindow tt in
  let (prevWin, _) := @NewLocalWindow World tt in
  let c := mkCounter size currWin (LocalWindow_iface prevWin) syncInterval
             NilChan in
  let effects :=
    if 0 <? syncInterval then [GoSync syncInterval; SetFinalizer] else [] in
  (c, currStop, effects).

(** The function registered as finalizer: [close(counter.syncStopCh)]. *)
Definition finalizer (counter : Counter) : result Counter :=
  ch <- chan_close (syncStopCh counter) ;;
  Ok (set_syncStopCh ch counter).

(** The loop of [Sync].  One turn of the [select] takes one of its two
    cases; the timer case is followed by [curr.Sync(time.Now())] under the
    lock, the stop case returns. *)
Inductive SelectCase : Set :=
| CaseTimer (now : Time)  (* <-time.After(interval), then time.Now() *)
| CaseStop.               (* <-counter.syncStopCh *)

Definition select_ready (counter : Counter) (k : SelectCase) : bool :=
  match k with
  | CaseTimer _ => true
  | CaseStop => chan_recv_ready (syncStopCh counter)
  end.

Inductive LoopStatus : Set :=
| Running   (* the schedule is exhausted, the loop is still waiting *)
| Returned. (* the loop has taken its stop case *)

(** [Counter_Sync interval sched counter]: the loop run along the schedule
    [sched] of select cases; [None] when the schedule takes a case that is
    not ready.  The interval sets the pace of the timer only. *)
Fixpoint Counter_Sync (interval : Duration) (sched : list SelectCase)
    (counter : Counter) : option (LoopStatus * Counter) :=
  match sched with
  | [] => Some (Running, counter)
  | k :: sched' =>
      if select_ready counter k then
        match k with
        | CaseStop => Some (Returned, counter)
        | CaseTimer now =>
            Counter_Sync interval sched'
              (set_curr (Sync now (curr counter)) counter)
        end
      else None
  end.

Definition Counter_Size (counter : Counter) : Duration := size counter.

(** [advance] updates the current and previous windows resulting from the
    passage of time. *)
Definition advance (now : Time) (counter : Counter) : result Counter :=
  let newCurrStart := Time_Truncate now (size counter) in
  diffSize <- int64_div (Time_Sub newCurrStart (Start (curr counter)))
                        (size counter) ;;
  if 1 <=? diffSize then
    let newPrevCount :=
      if diffSize =? 1 then Count (curr counter) else 0 in
    let counter :=
      set_prev (Reset (Time_Add newCurrStart (int64_neg (size counter)))
                      newPrevCount (prev counter)) counter in
    Ok (set_curr (Reset newCurrStart 0 (curr counter)) counter)
  else Ok counter.

(** [AddN]: advance, add to the current window, then the deferred
    [curr.Sync(now)]. *)
Definition Counter_AddN (now : Time) (n : int64) (counter : Counter)
  : result Counter :=
  counter <- advance now counter ;;
  let counter := set_curr (AddCount n (curr counter)) counter in
  Ok (set_curr (Sync now (curr counter)) counter).

(** [Increment] is [AddN(time.Now(), 1)]; [clock] is the reading of
    [time.Now()]. *)
Definition Counter_Increment (clock : Time) (counter : Counter)
  : result Counter :=
  Counter_AddN clock 1 counter.

Section Count.
Context {P : Platform}.

Definition Counter_Count (now : Time) (counter : Counter)
  : result (int64 * Counter) :=
  counter <- advance now counter ;;
  let elapsed := Time_Sub now (Start (curr counter)) in
  let weight :=
    float64_div (int64_to_float64 (int64_sub (size counter) elapsed))
                (int64_to_float64 (size counter)) in
  let count :=
    int64_add
      (float64_to_int64
         (float64_mul weight (int64_to_float64 (Count (prev counter)))))
      (Count (curr counter)) in
  Ok (count, counter).
End Count.

(** The calls a client (or the background task) can make on a counter. *)
Inductive Call : Set :=
| CallSize
| CallIncrement (clock : Time)
| CallAddN (now : Time) (n : int64)
| CallCount (now : Time)
| CallSyncTick (now : Time). (* one timer turn of the loop of [Sync] *)

Section Calls.
Context {P : Platform}.

Definition run_call (k : Call) (counter : Counter) : result Counter :=
  match k with
  | CallSize => let _ := Counter_Size counter in Ok counter
  | CallIncrement clock => Counter_Increment clock counter
  | CallAddN now n => Counter_AddN now n counter
  | CallCount now =>
      r <- Counter_Count now counter ;; Ok (snd r)
  | CallSyncTick now =>
      Ok (set_curr (Sync now (curr counter)) counter)
  end.

Fixpoint run_calls (ks : list Call) (counter : Counter) : result Counter :=
  match ks with
  | [] => Ok counter
  | k :: ks' => counter <- run_call k counter ;; run_calls ks' counter
  end.
End Calls.

(** The instant a call passes to [advance]. *)
Definition call_now (k : Call) : option Time :=
  match k with
  | CallIncrement clock => Some clock
  | CallAddN now _ => Some now
  | CallCount now => Some now
  | CallSize | CallSyncTick _ => None
  end.

(** ** Concrete counters

    Used to exercise the statements: one-minute buckets, two local
    windows. *)
Definition minute : Duration := 60 * Second.

Definition local_counter (currStart : Time) (currCount : int64)
    (prevStart : Time) (prevCount : int64) : Counter :=
  mkCounter minute
    (LocalWindow_iface (mkLocalWindow currStart currCount))
    (LocalWindow_iface (mkLocalWindow prevStart prevCount))
    0 NilChan.

(** [time.Unix(0, 0)], and an instant of January 2027 on a minute
    boundary. *)
Definition unixEpoch : Time := 62135596800 * Second.
Definition jan2027 : Time := unixEpoch + 1800000000 * Second.

(** ** Further definitions *)

(** A backend that keeps its count in process: [AddCount] adds, with
    wrap-around, and [Sync] leaves the count alone. *)
Record CountLaws (T : Type) (M : WindowMethods T) : Prop := mkCountLaws
  { Count_AddCount :
      forall n x, m_Count M (m_AddCount M n x) = int64_add (m_Count M x) n;
    Count_Sync : forall now x, m_Count M (m_Sync M now x) = m_Count M x }.

Definition counting (w : Window) : Prop := CountLaws (wtype w) (wmethods w).

(** A float that is a number: a zero or a finite float. *)
Definition float64_is_finite (f : float64) : bool :=
  match f with
  | S754_zero _ | S754_finite _ _ _ => true
  | S754_infinity _ | S754_nan => false
  end.

(** The float 1. *)
Definition float64_one : float64 := S754_finite false 4503599627370496 (- 52).

(** * Properties *)

(** ** Arithmetic of the embedding *)

Lemma in_int64b_spec (z : Z) : in_int64b z = true <-> in_int64 z.
Proof.
  unfold in_int64b, in_int64.
  rewrite andb_true_iff, !Z.leb_le. tauto.
Qed.

Lemma wrap64_id (z : Z) : in_int64 z -> wrap64 z = z.
Proof.
  unfold in_int64, wrap64, minInt64, maxInt64. intros H.
  rewrite Z.mod_small by lia. lia.
Qed.

Lemma wrap64_range (z : Z) : in_int64 (wrap64 z).
Proof.
  unfold in_int64, wrap64, minInt64, maxInt64.
  pose proof (Z.mod_pos_bound (z + 2 ^ 63) (2 ^ 64) ltac:(lia)). lia.
Qed.

Lemma Time_Sub_range (t u : Time) : in_int64 (Time_Sub t u).
Proof.
  unfold Time_Sub, in_int64, minDuration, maxDuration.
  destruct (Z.ltb_spec (t - u) minInt64); [unfold minInt64, maxInt64; lia|].
  destruct (Z.ltb_spec maxInt64 (t - u)); [unfold minInt64, maxInt64; lia|].
  lia.
Qed.

Lemma Time_Sub_exact (t u : Time) : in_int64 (t - u) -> Time_Sub t u = t - u.
Proof.
  unfold Time_Sub, in_int64, minDuration, maxDuration. intros H.
  destruct (Z.ltb_spec (t - u) minInt64); [lia|].
  destruct (Z.ltb_spec maxInt64 (t - u)); [lia|]. reflexivity.
Qed.

Lemma Time_Sub_diag (t : Time) : Time_Sub t t = 0.
Proof.
  rewrite Time_Sub_exact; [lia|].
  unfold in_int64, minInt64, maxInt64. lia.
Qed.

Lemma Time_Sub_neg (t u : Time) : t < u -> minInt64 <= Time_Sub t u < 0.
Proof.
  intros H. pose proof (Time_Sub_range t u) as R. unfold in_int64 in R.
  split; [lia|].
  unfold Time_Sub, minDuration, maxDuration.
  destruct (Z.ltb_spec (t - u) minInt64); [unfold minInt64; lia|].
  destruct (Z.ltb_spec maxInt64 (t - u)); [unfold maxInt64 in *; lia|]. lia.
Qed.

(** For a positive size the truncated instant is the start of the aligned
    bucket that contains the instant. *)
Lemma Time_Truncate_aligned (t : Time) (d : Duration) :
  0 < d ->
  Time_Truncate t d mod d = 0 /\
  Time_Truncate t d <= t < Time_Truncate t d + d.
Proof.
  intros Hd. unfold Time_Truncate, Time_Add.
  destruct (Z.leb_spec d 0); [lia|].
  pose proof (Z.mod_pos_bound t d Hd).
  split; [|lia].
  replace (t + - (t mod d)) with (d * (t / d))
    by (pose proof (Z.div_mod t d ltac:(lia)); lia).
  rewrite Z.mul_comm. apply Z.mod_mul. lia.
Qed.

(** An aligned instant is its own truncation, and truncation picks the
    bucket: the only aligned start within one size below the instant. *)
Lemma Time_Truncate_unique (t s : Time) (d : Duration) :
  0 < d -> s mod d = 0 -> s <= t < s + d -> Time_Truncate t d = s.
Proof.
  intros Hd Hs Ht.
  destruct (Time_Truncate_aligned t d Hd) as [Ha Hb].
  set (u := Time_Truncate t d) in *.
  apply Z.mod_divide in Ha; [|lia]. apply Z.mod_divide in Hs; [|lia].
  destruct Ha as [a Ha], Hs as [b Hs]. subst u. rewrite Ha in *. subst s.
  assert (a = b) by nia. subst. reflexivity.
Qed.

Lemma int64_neg_pos (d : Z) : 0 < d <= maxInt64 -> int64_neg d = - d.
Proof.
  intros H. apply wrap64_id. unfold in_int64, minInt64, maxInt64 in *. lia.
Qed.

Lemma int64_div_Ok (a b : int64) :
  b <> 0 -> int64_div a b = Ok (wrap64 (Z.quot a b)).
Proof.
  intros H. unfold int64_div.
  destruct (Z.eqb_spec b 0); [contradiction|reflexivity].
Qed.

Lemma int64_div_zero (a : int64) : int64_div a 0 = Panic DivideByZero.
Proof. reflexivity. Qed.

Lemma int64_div_inv (a b q : int64) :
  int64_div a b = Ok q -> b <> 0 /\ q = wrap64 (Z.quot a b).
Proof.
  unfold int64_div. destruct (Z.eqb_spec b 0); [discriminate|].
  intros H. injection H as <-. auto.
Qed.

(** Dividing a negative in-range duration by a positive one gives a
    quotient that is at most zero, and no wrap-around. *)
Lemma quot_neg_pos (a b : Z) :
  minInt64 <= a < 0 -> 0 < b -> wrap64 (Z.quot a b) <= 0.
Proof.
  intros Ha Hb.
  assert (Hq : a <= Z.quot a b <= 0).
  { assert (Ha0 : a < 0) by lia. clear Ha.
    Z.to_euclidean_division_equations. nia. }
  rewrite wrap64_id; [lia|]. unfold in_int64, maxInt64. lia.
Qed.

(** ** Windows *)

Lemma LocalWindow_laws : WindowLaws LocalWindow LocalWindow_methods.
Proof. constructor; reflexivity. Qed.

Lemma LocalWindow_iface_lawful (l : LocalWindow) :
  lawful (LocalWindow_iface l).
Proof. exact LocalWindow_laws. Qed.

Lemma lawful_Start_Reset (w : Window) (s : Time) (c : int64) :
  lawful w -> Start (Reset s c w) = s.
Proof. intros L. apply (Start_Reset _ _ L). Qed.

Lemma lawful_Count_Reset (w : Window) (s : Time) (c : int64) :
  lawful w -> Count (Reset s c w) = c.
Proof. intros L. apply (Count_Reset _ _ L). Qed.

Lemma lawful_Start_AddCount (w : Window) (n : int64) :
  lawful w -> Start (AddCount n w) = Start w.
Proof. intros L. apply (Start_AddCount _ _ L). Qed.

Lemma lawful_Start_Sync (w : Window) (now : Time) :
  lawful w -> Start (Sync now w) = Start w.
Proof. intros L. apply (Start_Sync _ _ L). Qed.

Lemma is_LocalWindow_Reset (w : Window) (s : Time) (c : int64) :
  is_LocalWindow w -> is_LocalWindow (Reset s c w).
Proof.
  intros [l ->]. exists (LocalWindow_Reset s c l). reflexivity.
Qed.

(** ** The advance step *)

(** The outcome of [advance], case by case. *)
Lemma advance_cases (now : Time) (c : Counter) :
  let newCurrStart := Time_Truncate now (size c) in
  let diff := wrap64 (Z.quot (Time_Sub newCurrStart (Start (curr c))) (size c)) in
  advance now c =
    if size c =? 0 then Panic DivideByZero
    else if 1 <=? diff then
      Ok (set_curr (Reset newCurrStart 0 (curr c))
            (set_prev (Reset (Time_Add newCurrStart (int64_neg (size c)))
                             (if diff =? 1 then Count (curr c) else 0)
                             (prev c)) c))
    else Ok c.
Proof.
  unfold advance, int64_div.
  destruct (size c =? 0); reflexivity.
Qed.

Lemma advance_size_zero (now : Time) (c : Counter) :
  size c = 0 -> advance now c = Panic DivideByZero.
Proof. intros H. rewrite advance_cases, H. reflexivity. Qed.

Lemma advance_total (now : Time) (c : Counter) :
  size c <> 0 -> exists c', advance now c = Ok c'.
Proof.
  intros H. rewrite advance_cases.
  destruct (Z.eqb_spec (size c) 0); [contradiction|].
  destruct (1 <=? _); eauto.
Qed.

(** What [advance] never touches. *)
Lemma advance_frame (now : Time) (c c' : Counter) :
  advance now c = Ok c' ->
  size c' = size c /\ syncInterval c' = syncInterval c /\
  syncStopCh c' = syncStopCh c /\
  wtype (curr c') = wtype (curr c) /\
  (lawful (curr c) -> lawful (curr c')) /\
  (lawful (prev c) -> lawful (prev c')) /\
  (is_LocalWindow (prev c) -> is_LocalWindow (prev c')).
Proof.
  rewrite advance_cases.
  destruct (size c =? 0); [discriminate|].
  destruct (1 <=? _); intros H; injection H as <-;
    refine (conj eq_refl (conj eq_refl (conj eq_refl (conj eq_refl
              (conj _ (conj _ _)))))); unfold lawful; cbn;
    auto using is_LocalWindow_Reset.
Qed.

(** Below a quotient of 1, [advance] returns the counter as it is. *)
Lemma advance_below_one (now : Time) (c : Counter) (diff : int64) :
  int64_div (Time_Sub (Time_Truncate now (size c)) (Start (curr c)))
            (size c) = Ok diff ->
  diff < 1 ->
  advance now c = Ok c.
Proof.
  intros Hdiv Hlt. unfold advance. rewrite Hdiv. cbn.
  destruct (Z.leb_spec 1 diff); [lia|reflexivity].
Qed.

(** From a quotient of 1 on, [advance] moves both starts. *)
Lemma advance_rotation_starts (now : Time) (c : Counter) (diff : int64) :
  0 < size c <= maxInt64 ->
  lawful (curr c) -> lawful (prev c) ->
  int64_div (Time_Sub (Time_Truncate now (size c)) (Start (curr c)))
            (size c) = Ok diff ->
  1 <= diff ->
  exists c' : Counter,
    advance now c = Ok c' /\
    Start (curr c') = Time_Truncate now (size c) /\
    Start (prev c') = Time_Truncate now (size c) - size c.
Proof.
  intros Hsize Lc Lp Hdiv Hdiff.
  unfold advance. rewrite Hdiv. cbn.
  destruct (Z.leb_spec 1 diff); [|lia].
  eexists. split; [reflexivity|]. cbn.
  rewrite !lawful_Start_Reset by assumption.
  rewrite int64_neg_pos by lia. unfold Time_Add. split; lia.
Qed.

(** C7.  Whenever the quotient [diff] of [advance] is below 1, [advance]
    returns normally and the counter it returns is the counter it was given:
    start and count of both windows are untouched.  In particular, with a
    positive size, an instant earlier than the start of the current window
    gives [diff <= 0]: no rotation backward, and no panic. *)
Theorem advance_no_rotation (now : Time) (c : Counter) :
  (forall diff : int64,
      int64_div (Time_Sub (Time_Truncate now (size c)) (Start (curr c)))
                (size c) = Ok diff ->
      diff < 1 ->
      advance now c = Ok c) /\
  (0 < size c -> now < Start (curr c) ->
   exists diff : int64,
     int64_div (Time_Sub (Time_Truncate now (size c)) (Start (curr c)))
               (size c) = Ok diff /\
     diff <= 0 /\ advance now c = Ok c).
Proof.
  pose proof (advance_below_one now c) as Hfst.
  split; [exact Hfst|].
  intros Hsize Hnow.
  destruct (Time_Truncate_aligned now (size c) Hsize) as [_ Hle].
  assert (Hneg : minInt64
                 <= Time_Sub (Time_Truncate now (size c)) (Start (curr c))
                 < 0) by (apply Time_Sub_neg; lia).
  pose proof (quot_neg_pos _ _ Hneg Hsize) as Hq.
  assert (Hnz : size c <> 0) by lia.
  eexists. split; [apply int64_div_Ok; exact Hnz|].
  split; [exact Hq|].
  apply (Hfst _ (int64_div_Ok _ _ Hnz)). lia.
Qed.

Lemma advance_no_rotation_witness :
  advance (150 * Second) (local_counter (120 * Second) 7 (60 * Second) 3)
  = Ok (local_counter (120 * Second) 7 (60 * Second) 3) /\
  exists diff : int64,
    int64_div (Time_Sub (Time_Truncate (30 * Second) minute) (120 * Second))
              minute = Ok diff /\
    diff <= 0 /\
    advance (30 * Second) (local_counter (120 * Second) 7 (60 * Second) 3)
    = Ok (local_counter (120 * Second) 7 (60 * Second) 3).
Proof.
  split.
  - apply (proj1 (advance_no_rotation (150 * Second)
                    (local_counter (120 * Second) 7 (60 * Second) 3)) 0);
      reflexivity.
  - apply (proj2 (advance_no_rotation (30 * Second)
                    (local_counter (120 * Second) 7 (60 * Second) 3)));
      reflexivity.
Defined.

(** C2.  With a positive size, [newCurrStart] is the instant truncated down
    to a multiple of the size.  When the quotient [diff] is at least 1,
    [advance] performs one rotation, whatever [diff] is: one [Reset] of the
    previous window, to start [newCurrStart - size] and to the count of the
    current window if [diff = 1] and to 0 if [diff > 1], and one [Reset] of
    the current window, to start [newCurrStart] and count 0.  A window that
    honours [Reset] then shows that start and that count. *)
Theorem advance_rotates_once (now : Time) (c : Counter) (diff : int64) :
  0 < size c <= maxInt64 ->
  let newCurrStart := Time_Truncate now (size c) in
  int64_div (Time_Sub newCurrStart (Start (curr c))) (size c) = Ok diff ->
  1 <= diff ->
  (newCurrStart mod size c = 0 /\
   newCurrStart <= now < newCurrStart + size c) /\
  exists c' : Counter,
    advance now c = Ok c' /\
    c' = set_curr (Reset newCurrStart 0 (curr c))
           (set_prev (Reset (newCurrStart - size c)
                            (if diff =? 1 then Count (curr c) else 0)
                            (prev c)) c) /\
    (lawful (prev c) ->
     Start (prev c') = newCurrStart - size c /\
     Count (prev c') = (if diff =? 1 then Count (curr c) else 0)) /\
    (lawful (curr c) ->
     Start (curr c') = newCurrStart /\ Count (curr c') = 0).
Proof.
  intros Hsize newCurrStart Hdiv Hdiff.
  split; [apply Time_Truncate_aligned; lia|].
  eexists. split.
  { unfold advance. fold newCurrStart. rewrite Hdiv. cbn.
    destruct (Z.leb_spec 1 diff); [|lia].
    rewrite int64_neg_pos by lia. unfold Time_Add.
    rewrite Z.add_opp_r. reflexivity. }
  split; [reflexivity|]. cbn.
  split; intros L;
    rewrite lawful_Start_Reset, lawful_Count_Reset by exact L; auto.
Qed.

Lemma advance_rotates_once_witness :
  exists c' : Counter,
    advance (185 * Second) (local_counter (120 * Second) 7 (60 * Second) 3)
    = Ok c' /\
    Start (prev c') = 120 * Second /\ Count (prev c') = 7 /\
    Start (curr c') = 180 * Second /\ Count (curr c') = 0.
Proof.
  destruct (advance_rotates_once (185 * Second)
              (local_counter (120 * Second) 7 (60 * Second) 3) 1)
    as [_ [c' [Ha [_ [Hp Hc]]]]].
  - vm_compute. split; [reflexivity|discriminate].
  - vm_compute. reflexivity.
  - lia.
  - destruct (Hp (LocalWindow_iface_lawful _)) as [H1 H2].
    destruct (Hc (LocalWindow_iface_lawful _)) as [H3 H4].
    exists c'. split; [exact Ha|].
    change (Time_Truncate (185 * Second)
              (size (local_counter (120 * Second) 7 (60 * Second) 3)))
      with (180 * Second) in H1, H3.
    repeat split; assumption.
Defined.

(** ** Construction and teardown *)

Section Lifecycle.
Context {World : Type} {P : Platform}.

Lemma NewCounter_unfold (sz : Duration) (newWindow : NewWindow World)
    (si : Duration) :
  NewCounter sz newWindow si
  = (mkCounter sz (fst (newWindow tt))
       (LocalWindow_iface (mkLocalWindow 0 0)) si NilChan,
     snd (newWindow tt),
     if 0 <? si then [GoSync si; SetFinalizer] else []).
Proof.
  unfold NewCounter. destruct (newWindow tt) as [w stop]. reflexivity.
Qed.

(** What a call never touches: the size, the fields of the background
    task, and the backend of the previous window. *)
Lemma run_call_frame (k : Call) (c c' : Counter) :
  run_call k c = Ok c' ->
  size c' = size c /\ syncInterval c' = syncInterval c /\
  syncStopCh c' = syncStopCh c /\
  (is_LocalWindow (prev c) -> is_LocalWindow (prev c')).
Proof.
  assert (HaddN : forall now n, Counter_AddN now n c = Ok c' ->
    size c' = size c /\ syncInterval c' = syncInterval c /\
    syncStopCh c' = syncStopCh c /\
    (is_LocalWindow (prev c) -> is_LocalWindow (prev c'))).
  { intros now n. unfold Counter_AddN.
    destruct (advance now c) as [c1|p] eqn:E; [|discriminate].
    destruct (advance_frame _ _ _ E) as (H1 & H2 & H3 & _ & _ & _ & H4).
    cbn. intros H. injection H as <-. cbn. auto. }
  destruct k as [|clock|now n|now|now]; cbn.
  - intros H. injection H as <-. auto.
  - apply HaddN.
  - apply HaddN.
  - unfold Counter_Count.
    destruct (advance now c) as [c1|p] eqn:E; [|discriminate].
    destruct (advance_frame _ _ _ E) as (H1 & H2 & H3 & _ & _ & _ & H4).
    cbn. intros H. injection H as <-. auto.
  - intros H. injection H as <-. cbn. auto.
Qed.

Lemma run_calls_frame (ks : list Call) (c c' : Counter) :
  run_calls ks c = Ok c' ->
  size c' = size c /\ syncInterval c' = syncInterval c /\
  syncStopCh c' = syncStopCh c /\
  (is_LocalWindow (prev c) -> is_LocalWindow (prev c')).
Proof.
  revert c. induction ks as [|k ks IH]; intros c; cbn.
  - intros H. injection H as <-. auto.
  - destruct (run_call k c) as [c1|p] eqn:E; [|discriminate]. cbn.
    intros H. destruct (run_call_frame _ _ _ E) as (A1 & A2 & A3 & A4).
    destruct (IH _ H) as (B1 & B2 & B3 & B4).
    repeat split; try congruence. auto.
Qed.

(** The loop of [Sync] on a counter whose stop channel is nil: whatever
    the schedule, it has not returned. *)
Lemma Counter_Sync_nil (interval : Duration) (sched : list SelectCase)
    (c c' : Counter) (st : LoopStatus) :
  syncStopCh c = NilChan ->
  Counter_Sync interval sched c = Some (st, c') ->
  st = Running /\ syncStopCh c' = NilChan.
Proof.
  revert c. induction sched as [|k sched IH]; intros c Hnil; cbn.
  - intros H. injection H as <- <-. auto.
  - destruct k as [now|]; cbn.
    + apply IH. exact Hnil.
    + rewrite Hnil. discriminate.
Qed.

(** C6.  The counter returned by [NewCounter], for every factory and also
    when [syncInterval > 0], has a nil [syncStopCh], and no call on the
    counter assigns the field.  Hence, in every state the counter can
    reach, the stop case of the [select] in [Sync] is not ready, the loop
    never returns, and the finalizer, [close(counter.syncStopCh)], panics
    on closing a nil channel. *)
Theorem syncStopCh_stays_nil (sz : Duration) (newWindow : NewWindow World)
    (si : Duration) :
  let c := fst (fst (NewCounter sz newWindow si)) in
  syncStopCh c = NilChan /\
  forall (ks : list Call) (c' : Counter),
    run_calls ks c = Ok c' ->
    syncStopCh c' = NilChan /\
    select_ready c' CaseStop = false /\
    (forall interval sched st c'',
        Counter_Sync interval sched c' = Some (st, c'') ->
        st = Running /\ syncStopCh c'' = NilChan) /\
    finalizer c' = Panic CloseOfNilChannel.
Proof.
  rewrite NewCounter_unfold. cbn. split; [reflexivity|].
  intros ks c' H.
  destruct (run_calls_frame _ _ _ H) as (_ & _ & Hch & _). cbn in Hch.
  split; [exact Hch|]. split; [cbn; rewrite Hch; reflexivity|].
  split.
  - intros interval sched st c'' Hs.
    exact (Counter_Sync_nil _ _ _ _ _ Hch Hs).
  - unfold finalizer. rewrite Hch. reflexivity.
Qed.

(** C8.  Whatever the factory passed to [NewCounter] produces for the
    current slot, the previous slot holds a new [LocalWindow]; it is still
    a [LocalWindow] after any calls on the counter. *)
Theorem prev_is_LocalWindow (sz : Duration) (newWindow : NewWindow World)
    (si : Duration) :
  let c := fst (fst (NewCounter sz newWindow si)) in
  prev c = LocalWindow_iface (fst (@NewLocalWindow World tt)) /\
  curr c = fst (newWindow tt) /\
  forall (ks : list Call) (c' : Counter),
    run_calls ks c = Ok c' -> is_LocalWindow (prev c').
Proof.
  rewrite NewCounter_unfold. cbn. split; [reflexivity|].
  split; [reflexivity|].
  intros ks c' H.
  destruct (run_calls_frame _ _ _ H) as (_ & _ & _ & Hl).
  apply Hl. cbn. eexists. reflexivity.
Qed.

(** C3, as the code has it.  [NewCounter] does not inspect the size: for
    every size, positive or not, it returns a counter of that size.  A
    zero size shows only later: [AddN], [Increment] and [Count] on such a
    counter panic, dividing by zero in [advance]. *)
Theorem NewCounter_accepts_any_size (sz : Duration)
    (newWindow : NewWindow World) (si : Duration) :
  let c := fst (fst (NewCounter sz newWindow si)) in
  Counter_Size c = sz /\
  (sz = 0 ->
   forall (now : Time) (n : int64),
     Counter_AddN now n c = Panic DivideByZero /\
     Counter_Increment now c = Panic DivideByZero /\
     Counter_Count now c = Panic DivideByZero).
Proof.
  rewrite NewCounter_unfold. cbn. split; [reflexivity|].
  intros -> now n.
  unfold Counter_Increment, Counter_AddN, Counter_Count.
  rewrite !advance_size_zero by reflexivity. auto.
Qed.

End Lifecycle.

(** ** Conversion of a float to an integer *)

(** [float64_trunc] discards the fraction: it is the quotient, truncated
    toward zero, of the numerator by the denominator of the float. *)
Lemma float64_trunc_quot (f : float64) (z : Z) :
  float64_trunc f = Some z ->
  z = Z.quot (float64_num f) (float64_den f).
Proof.
  destruct f as [s|s| |s m e]; cbn; try discriminate.
  - intros H. injection H as <-. reflexivity.
  - intros H. injection H as <-.
    assert (Hm : Z.shiftl (Z.pos m) e
                 = Z.quot (Z.pos m * 2 ^ Z.max e 0) (2 ^ Z.max (- e) 0)).
    { destruct (Z.le_gt_cases 0 e) as [He|He].
      - rewrite Z.shiftl_mul_pow2 by assumption.
        rewrite Z.max_l, Z.max_r by lia.
        rewrite Z.pow_0_r, Z.quot_1_r. reflexivity.
      - rewrite Z.shiftl_div_pow2 by lia.
        rewrite Z.max_r, Z.max_l by lia.
        rewrite Z.pow_0_r, Z.mul_1_r.
        rewrite Z.quot_div_nonneg; [reflexivity|lia|].
        apply Z.pow_pos_nonneg; lia. }
    destruct s; [|exact Hm].
    rewrite Hm. symmetry. apply Z.quot_opp_l.
    apply Z.pow_nonzero; lia.
Qed.

Lemma float64_den_pos (f : float64) : 0 < float64_den f.
Proof.
  destruct f; cbn; try lia; apply Z.pow_pos_nonneg; lia.
Qed.

Section Estimate.
Context {P : Platform}.

Lemma float64_to_int64_fits (f : float64) (z : Z) :
  float64_trunc f = Some z -> in_int64 z -> float64_to_int64 f = z.
Proof.
  intros Ht Hz. unfold float64_to_int64. rewrite Ht.
  apply in_int64b_spec in Hz. rewrite Hz. reflexivity.
Qed.

(** A second [advance] at the same instant does nothing. *)
Lemma advance_idempotent (now : Time) (c c1 : Counter) :
  lawful (curr c) -> advance now c = Ok c1 -> advance now c1 = Ok c1.
Proof.
  intros L. rewrite advance_cases.
  destruct (Z.eqb_spec (size c) 0) as [|Hsize]; [discriminate|].
  destruct (1 <=? _) eqn:E; intros H; injection H as <-.
  - rewrite advance_cases. cbn.
    destruct (Z.eqb_spec (size c) 0); [contradiction|].
    rewrite lawful_Start_Reset by exact L.
    rewrite Time_Sub_diag, Z.quot_0_l by exact Hsize. reflexivity.
  - rewrite advance_cases.
    destruct (Z.eqb_spec (size c) 0); [contradiction|].
    rewrite E. reflexivity.
Qed.

(** C10.  On a counter whose current window honours [Reset] (and whose
    size is not zero, so that [Count] returns), [Count(now)] returns a
    value and leaves a counter on which [advance] at the same [now] is a
    no-op and [Count(now)] returns that value again. *)
Theorem Count_idempotent (now : Time) (c : Counter) :
  lawful (curr c) -> size c <> 0 ->
  exists (v : int64) (c1 : Counter),
    Counter_Count now c = Ok (v, c1) /\
    advance now c1 = Ok c1 /\
    Counter_Count now c1 = Ok (v, c1).
Proof.
  intros L Hsize. destruct (advance_total now c Hsize) as [c1 Ha].
  pose proof (advance_idempotent _ _ _ L Ha) as Hb.
  eexists. exists c1. unfold Counter_Count. rewrite Ha, Hb. cbn.
  split; [reflexivity|]. split; reflexivity.
Qed.
End Estimate.

(** ** The one-rotation scenario *)

Section Scenario.
Context {P : Platform}.

(** The weighted term of the scenario: 59/60 of 10, truncated. *)
Lemma scenario_estimate :
  int64_add
    (float64_to_int64
       (float64_mul
          (float64_div (int64_to_float64 (int64_sub minute Second))
                       (int64_to_float64 minute))
          (int64_to_float64 10)))
    0 = 9.
Proof. vm_compute. reflexivity. Qed.

Lemma Time_Truncate_next_bucket (t0 : Time) :
  t0 mod minute = 0 ->
  Time_Truncate (t0 + minute + Second) minute = t0 + minute.
Proof.
  intros Hal. apply Time_Truncate_unique.
  - reflexivity.
  - replace (t0 + minute) with (t0 + 1 * minute) by lia.
    rewrite Z.mod_add by discriminate. exact Hal.
  - unfold minute, Second, Nanosecond. lia.
Qed.

(** C9.  Size 60s; the current window starts at the bucket boundary [t0]
    and holds 10.  [Count] at [t0 + 60s + 1s] finds [diff = 1], rotates
    the 10 into the previous window, leaves the current window at 0, and
    returns [floor(59/60 * 10) + 0 = 9]. *)
Theorem Count_after_one_window (t0 : Time) (c : Counter) :
  size c = 60 * Second ->
  lawful (curr c) -> lawful (prev c) ->
  Start (curr c) = t0 -> t0 mod (60 * Second) = 0 ->
  Count (curr c) = 10 ->
  int64_div (Time_Sub (Time_Truncate (t0 + 60 * Second + 1 * Second)
                                     (size c))
                      (Start (curr c)))
            (size c) = Ok 1 /\
  exists c' : Counter,
    Counter_Count (t0 + 60 * Second + 1 * Second) c = Ok (9, c') /\
    Count (prev c') = 10 /\ Start (prev c') = t0 /\
    Count (curr c') = 0 /\ Start (curr c') = t0 + 60 * Second.
Proof.
  intros Hsz Lc Lp Hst Hal Hcnt.
  change (60 * Second) with minute in *.
  change (1 * Second) with Second.
  pose proof (Time_Truncate_next_bucket t0 Hal) as Htr.
  assert (Hsub : Time_Sub (t0 + minute) t0 = minute).
  { rewrite Time_Sub_exact; [lia|].
    replace (t0 + minute - t0) with minute by lia.
    unfold in_int64. split; discriminate. }
  assert (Hel : Time_Sub (t0 + minute + Second) (t0 + minute) = Second).
  { rewrite Time_Sub_exact; [lia|].
    replace (t0 + minute + Second - (t0 + minute)) with Second by lia.
    unfold in_int64. split; discriminate. }
  rewrite Hsz, Hst, Htr, Hsub.
  split; [reflexivity|].
  eexists. split.
  - unfold Counter_Count. rewrite advance_cases.
    rewrite Hsz, Hst, Htr, Hsub, Hcnt.
    change (minute =? 0) with false.
    change (wrap64 (Z.quot minute minute)) with 1.
    change (1 <=? 1) with true. change (1 =? 1) with true.
    cbn [bind curr prev size set_curr set_prev].
    rewrite lawful_Start_Reset by exact Lc.
    rewrite !lawful_Count_Reset by assumption.
    rewrite Hsz, Hel, scenario_estimate. reflexivity.
  - cbn [curr prev size set_curr set_prev].
    rewrite !lawful_Start_Reset, !lawful_Count_Reset by assumption.
    change (int64_neg minute) with (- minute). unfold Time_Add.
    repeat split; lia.
Qed.
End Scenario.

(** ** The starts of the two windows *)

Section Starts.
Context {P : Platform}.

(** [Increment], [AddN] and [Count] move the starts only through
    [advance]. *)
Lemma run_call_advance (k : Call) (now : Time) (c c1 : Counter) :
  call_now k = Some now -> lawful (curr c) ->
  advance now c = Ok c1 ->
  exists c' : Counter,
    run_call k c = Ok c' /\
    Start (curr c') = Start (curr c1) /\ prev c' = prev c1.
Proof.
  intros Hk L Ha.
  destruct (advance_frame _ _ _ Ha) as (_ & _ & _ & _ & L1 & _).
  specialize (L1 L).
  assert (HaddN : forall n, exists c' : Counter,
    Counter_AddN now n c = Ok c' /\
    Start (curr c') = Start (curr c1) /\ prev c' = prev c1).
  { intros n. unfold Counter_AddN. rewrite Ha. cbn.
    eexists. split; [reflexivity|]. cbn. split; [|reflexivity].
    rewrite lawful_Start_Sync, lawful_Start_AddCount; auto. }
  destruct k as [|clock|t n|t|t]; cbn in Hk; try discriminate;
    injection Hk as ->; cbn.
  - apply HaddN.
  - apply HaddN.
  - unfold Counter_Count. rewrite Ha. cbn. eauto.
Qed.

(** With an aligned current start that is not after [now], [advance]
    leaves the current start at the bucket of [now]. *)
Lemma advance_curr_start (now : Time) (c c1 : Counter) :
  0 < size c <= maxInt64 -> lawful (curr c) ->
  Start (curr c) mod size c = 0 -> Start (curr c) <= now ->
  advance now c = Ok c1 ->
  Start (curr c1) = Time_Truncate now (size c).
Proof.
  intros Hsize L Hal Hle. rewrite advance_cases.
  destruct (Z.eqb_spec (size c) 0); [lia|].
  destruct (Z.leb_spec 1
    (wrap64 (Z.quot (Time_Sub (Time_Truncate now (size c)) (Start (curr c)))
                    (size c)))) as [Hd|Hd];
    intros H; injection H as <-.
  - cbn. apply lawful_Start_Reset. exact L.
  - symmetry. apply Time_Truncate_unique; [lia|exact Hal|].
    split; [exact Hle|].
    destruct (Time_Truncate_aligned now (size c) ltac:(lia)) as [Ha Hb].
    set (u := Time_Truncate now (size c)) in *.
    set (s := Start (curr c)) in *. set (d := size c) in *.
    destruct (Z.lt_ge_cases now (s + d)) as [|Hge]; [assumption|exfalso].
    assert (Hus : d <= u - s).
    { apply Z.mod_divide in Ha; [|lia]. apply Z.mod_divide in Hal; [|lia].
      destruct Ha as [a Ha], Hal as [b Hal]. rewrite Ha, Hal in *.
      assert (b < a) by nia. nia. }
    assert (Hx : d <= Time_Sub u s <= maxInt64).
    { unfold Time_Sub, minDuration, maxDuration.
      destruct (Z.ltb_spec (u - s) minInt64);
        [unfold minInt64 in *; lia|].
      destruct (Z.ltb_spec maxInt64 (u - s)); lia. }
    assert (Hq : 1 <= Z.quot (Time_Sub u s) d <= maxInt64).
    { assert (0 < d) by lia. clear - Hx H.
      Z.to_euclidean_division_equations. nia. }
    rewrite wrap64_id in Hd; [lia|].
    unfold in_int64, minInt64, maxInt64 in *. lia.
Qed.

(** C4, as the code has it.  For a positive size and lawful windows, each
    of [Increment], [AddN] and [Count] returns, and afterwards:
    - if its [advance] rotated, the current start is the aligned bucket
      of [now] and the previous start is one size before it;
    - if it did not rotate, both starts are as before;
    - if the current start was aligned and not after [now], the current
      start is the aligned bucket that contains [now];
    - if the previous start was one size before the current start, it
      still is. *)
Theorem starts_after_call (k : Call) (now : Time) (c : Counter) :
  0 < size c <= maxInt64 ->
  lawful (curr c) -> lawful (prev c) ->
  call_now k = Some now ->
  exists (diff : int64) (c' : Counter),
    int64_div (Time_Sub (Time_Truncate now (size c)) (Start (curr c)))
              (size c) = Ok diff /\
    run_call k c = Ok c' /\
    size c' = size c /\
    (1 <= diff ->
     Start (curr c') = Time_Truncate now (size c) /\
     Start (curr c') mod size c = 0 /\
     Start (curr c') <= now < Start (curr c') + size c /\
     Start (prev c') = Start (curr c') - size c) /\
    (diff < 1 ->
     Start (curr c') = Start (curr c) /\
     Start (prev c') = Start (prev c)) /\
    (Start (curr c) mod size c = 0 -> Start (curr c) <= now ->
     Start (curr c') mod size c = 0 /\
     Start (curr c') <= now < Start (curr c') + size c) /\
    (Start (prev c) = Start (curr c) - size c ->
     Start (prev c') = Start (curr c') - size c).
Proof.
  intros Hsize Lc Lp Hk.
  assert (Hnz : size c <> 0) by lia.
  destruct (advance_total now c Hnz) as [c1 Ha].
  destruct (run_call_advance k now c c1 Hk Lc Ha) as (c' & Hrun & Hcs & Hp).
  destruct (run_call_frame _ _ _ Hrun) as (Hsz & _).
  pose proof (Time_Truncate_aligned now (size c) ltac:(lia)) as [Hal Hin].
  eexists. exists c'. split; [apply int64_div_Ok; exact Hnz|].
  split; [exact Hrun|]. split; [exact Hsz|].
  rewrite Hcs, Hp.
  assert (Hrot : 1 <= wrap64 (Z.quot (Time_Sub (Time_Truncate now (size c))
                                                (Start (curr c))) (size c)) ->
                 Start (curr c1) = Time_Truncate now (size c) /\
                 Start (prev c1) = Time_Truncate now (size c) - size c).
  { intros Hd.
    destruct (advance_rotation_starts now c _ Hsize Lc Lp
                (int64_div_Ok _ _ Hnz) Hd) as (c2 & Ha2 & H1 & H2).
    rewrite Ha in Ha2. injection Ha2 as <-. auto. }
  assert (Hstay : wrap64 (Z.quot (Time_Sub (Time_Truncate now (size c))
                                            (Start (curr c))) (size c)) < 1 ->
                  c1 = c).
  { intros Hd.
    pose proof (advance_below_one now c _ (int64_div_Ok _ _ Hnz) Hd)
      as Hc.
    rewrite Ha in Hc. injection Hc as ->. reflexivity. }
  split; [|split; [|split]].
  - intros Hd. destruct (Hrot Hd) as [H1 H2]. rewrite H1, H2. auto.
  - intros Hd. rewrite (Hstay Hd). auto.
  - intros Hs Hle.
    rewrite (advance_curr_start _ _ _ Hsize Lc Hs Hle Ha). auto.
  - intros Hinv.
    destruct (Z.le_gt_cases 1 (wrap64 (Z.quot
               (Time_Sub (Time_Truncate now (size c)) (Start (curr c)))
               (size c)))) as [Hd|Hd].
    + destruct (Hrot Hd) as [H1 H2]. rewrite H1, H2. reflexivity.
    + rewrite (Hstay ltac:(lia)). exact Hinv.
Qed.
End Starts.

(** * Instances

    The statements above at concrete counters, on amd64. *)

Lemma Count_idempotent_witness :
  exists (v : int64) (c1 : Counter),
    @Counter_Count amd64 (181 * Second)
      (local_counter (120 * Second) 10 (60 * Second) 4) = Ok (v, c1) /\
    advance (181 * Second) c1 = Ok c1 /\
    @Counter_Count amd64 (181 * Second) c1 = Ok (v, c1).
Proof.
  apply (@Count_idempotent amd64).
  - apply LocalWindow_iface_lawful.
  - discriminate.
Defined.

Lemma Count_after_one_window_witness :
  exists c' : Counter,
    @Counter_Count amd64 (120 * Second + 60 * Second + 1 * Second)
      (local_counter (120 * Second) 10 (60 * Second) 4) = Ok (9, c') /\
    Count (prev c') = 10 /\ Start (prev c') = 120 * Second /\
    Count (curr c') = 0 /\ Start (curr c') = 120 * Second + 60 * Second.
Proof.
  apply (@Count_after_one_window amd64 (120 * Second)
           (local_counter (120 * Second) 10 (60 * Second) 4)).
  - reflexivity.
  - apply LocalWindow_iface_lawful.
  - apply LocalWindow_iface_lawful.
  - reflexivity.
  - reflexivity.
  - reflexivity.
Defined.

Lemma starts_after_call_witness :
  exists c' : Counter,
    @run_call amd64 (CallAddN (185 * Second) 2)
      (local_counter (120 * Second) 10 (60 * Second) 4) = Ok c' /\
    Start (curr c') <= 185 * Second < Start (curr c') + minute /\
    Start (prev c') = Start (curr c') - minute.
Proof.
  destruct (@starts_after_call amd64 (CallAddN (185 * Second) 2)
              (185 * Second)
              (local_counter (120 * Second) 10 (60 * Second) 4))
    as (diff & c' & _ & Hrun & _ & _ & _ & Hal & Hinv).
  - vm_compute. split; [reflexivity|discriminate].
  - apply LocalWindow_iface_lawful.
  - apply LocalWindow_iface_lawful.
  - reflexivity.
  - exists c'. split; [exact Hrun|]. split.
    + apply Hal; [reflexivity|discriminate].
    + apply Hinv. reflexivity.
Defined.

Lemma NewCounter_accepts_any_size_witness :
  @Counter_Count amd64 (185 * Second)
    (fst (fst (@NewCounter unit 0 NewLocalWindow_factory 0)))
  = Panic DivideByZero.
Proof.
  exact (proj2 (proj2
    (proj2 (@NewCounter_accepts_any_size unit amd64 0
              NewLocalWindow_factory 0) eq_refl (185 * Second) 0))).
Defined.


Lemma syncStopCh_stays_nil_witness :
  exists c' : Counter,
    @run_calls amd64 [CallAddN (185 * Second) 2; CallCount (190 * Second)]
      (fst (fst (@NewCounter unit minute NewLocalWindow_factory Second)))
    = Ok c' /\
    select_ready c' CaseStop = false /\
    finalizer c' = Panic CloseOfNilChannel.
Proof.
  eexists. split; [reflexivity|].
  destruct (proj2 (@syncStopCh_stays_nil unit amd64 minute
                     NewLocalWindow_factory Second)
              [CallAddN (185 * Second) 2; CallCount (190 * Second)] _
              eq_refl)
    as (_ & Hs & _ & Hf).
  split; [exact Hs|exact Hf].
Defined.

Lemma prev_is_LocalWindow_witness :
  exists c' : Counter,
    @run_calls amd64 [CallAddN (185 * Second) 2; CallCount (190 * Second)]
      (fst (fst (@NewCounter unit minute NewLocalWindow_factory Second)))
    = Ok c' /\
    is_LocalWindow (prev c').
Proof.
  eexists. split; [reflexivity|].
  apply (proj2 (proj2 (@prev_is_LocalWindow unit amd64 minute
                         NewLocalWindow_factory Second))
           [CallAddN (185 * Second) 2; CallCount (190 * Second)]).
  reflexivity.
Defined.

(** C3 as stated fails.  The constructor does not reject a negative size:
    it returns a counter of size -60s, on which calls return normally; an
    event recorded 1000s earlier is still counted. *)
Lemma NewCounter_size_not_rejected :
  let c := fst (fst (@NewCounter unit (- minute) NewLocalWindow_factory 0)) in
  Counter_Size c = - minute /\
  exists c1 c2 : Counter,
    Counter_AddN (1000 * Second) 5 c = Ok c1 /\
    @Counter_Count amd64 (2000 * Second) c1 = Ok (5, c2).
Proof.
  cbn zeta. split; [reflexivity|].
  do 2 eexists. split; reflexivity.
Qed.

(** C4 as stated fails.  Right after construction both windows have the
    same start, so the previous start is not one size before the current
    one; and after a [Count] at some instant followed by a [Count] 90s
    earlier the current start is still the bucket of the first instant,
    which is not the bucket of the second. *)
Lemma starts_invariant_fails :
  let c := fst (fst (@NewCounter unit minute NewLocalWindow_factory 0)) in
  Start (prev c) <> Start (curr c) - size c /\
  exists (v1 v2 : int64) (c1 c2 : Counter),
    @Counter_Count amd64 jan2027 c = Ok (v1, c1) /\
    @Counter_Count amd64 (jan2027 - 90 * Second) c1 = Ok (v2, c2) /\
    Start (curr c2) = jan2027 /\
    Time_Truncate (jan2027 - 90 * Second) (size c2)
    = jan2027 - 120 * Second /\
    Start (curr c2) <> Time_Truncate (jan2027 - 90 * Second) (size c2).
Proof.
  cbn zeta. split; [vm_compute; discriminate|].
  do 4 eexists.
  split; [reflexivity|].
  split; [reflexivity|].
  split; [reflexivity|]. split; [reflexivity|].
  vm_compute. discriminate.
Qed.


(** The estimate is the [float64] one, not the exact quotient: with a size
    of 49ns, 48ns into the bucket and 49 events in the previous window, the
    exact weighted term is 1; in [float64], [1/49 * 49] is just below 1 and
    truncates to 0. *)
Remark Count_estimate_is_binary64 :
  let c := mkCounter 49 (LocalWindow_iface (mkLocalWindow 0 0))
             (LocalWindow_iface (mkLocalWindow (- 49) 49)) 0 NilChan in
  (exists c1 : Counter, @Counter_Count amd64 48 c = Ok (0, c1)) /\
  (49 - 48) * 49 / 49 = 1.
Proof. cbn zeta. split; [eexists|]; reflexivity. Qed.

(** * Further properties *)

(** ** Wrap-around *)

Lemma wrap64_congr (a b k : Z) : a = b + k * 2 ^ 64 -> wrap64 a = wrap64 b.
Proof.
  intros ->. unfold wrap64.
  replace (b + k * 2 ^ 64 + 2 ^ 63) with (b + 2 ^ 63 + k * 2 ^ 64) by lia.
  rewrite Z.mod_add by lia. reflexivity.
Qed.

Lemma wrap64_decompose (z : Z) : exists k : Z, wrap64 z = z + k * 2 ^ 64.
Proof.
  exists (- ((z + 2 ^ 63) / 2 ^ 64)). unfold wrap64.
  pose proof (Z.div_mod (z + 2 ^ 63) (2 ^ 64)) as H.
  assert (Hnz : 2 ^ 64 <> 0) by lia. specialize (H Hnz). lia.
Qed.

Lemma int64_add_assoc (a b c : int64) :
  int64_add (int64_add a b) c = int64_add a (int64_add b c).
Proof.
  unfold int64_add.
  destruct (wrap64_decompose (a + b)) as [k Hk].
  destruct (wrap64_decompose (b + c)) as [j Hj].
  rewrite Hk, Hj.
  transitivity (wrap64 (a + b + c)).
  - apply (wrap64_congr _ _ k). lia.
  - symmetry. apply (wrap64_congr _ _ j). lia.
Qed.

(** ** Size *)

Section Further.
Context {P : Platform}.

(** X1.  [Size] is read-only: after any calls on the counter it returns
    the size that was passed to [NewCounter]. *)
Theorem Size_is_constant {World : Type} (sz : Duration)
    (newWindow : NewWindow World) (si : Duration) (ks : list Call)
    (c' : Counter) :
  run_calls ks (fst (fst (NewCounter sz newWindow si))) = Ok c' ->
  Counter_Size c' = sz.
Proof.
  intros H. destruct (run_calls_frame _ _ _ H) as (Hs & _).
  rewrite NewCounter_unfold in Hs. exact Hs.
Qed.

(** After [advance] the quotient is below 1. *)
Lemma advance_settled (now : Time) (c c1 : Counter) :
  lawful (curr c) -> advance now c = Ok c1 ->
  exists diff : int64,
    int64_div (Time_Sub (Time_Truncate now (size c1)) (Start (curr c1)))
              (size c1) = Ok diff /\ diff < 1.
Proof.
  intros L. rewrite advance_cases.
  destruct (Z.eqb_spec (size c) 0) as [|Hsize]; [discriminate|].
  destruct (Z.leb_spec 1 (wrap64 (Z.quot
      (Time_Sub (Time_Truncate now (size c)) (Start (curr c))) (size c))))
    as [Hd|Hd]; intros H; injection H as <-; cbn.
  - rewrite lawful_Start_Reset by exact L.
    rewrite Time_Sub_diag. exists 0.
    rewrite int64_div_Ok by exact Hsize.
    rewrite Z.quot_0_l by exact Hsize. split; [reflexivity|lia].
  - eexists. split; [apply int64_div_Ok; exact Hsize|exact Hd].
Qed.

(** X2.  On a current window that keeps its count in process, [AddN(now, n)]
    raises the value of [Count(now)] by exactly [n] (with wrap-around):
    whatever the previous window and the weight are, the weighted term is
    the same before and after. *)
Theorem AddN_raises_Count (now : Time) (n : int64) (c : Counter) :
  lawful (curr c) -> counting (curr c) -> size c <> 0 ->
  exists (v : int64) (c1 c2 : Counter),
    Counter_Count now c = Ok (v, c1) /\
    Counter_AddN now n c = Ok c2 /\
    Counter_Count now c2 = Ok (int64_add v n, c2).
Proof.
  intros L C Hsize.
  destruct (advance_total now c Hsize) as [c1 Ha].
  destruct (advance_settled now c c1 L Ha) as (diff & Hdiv & Hlt).
  destruct (advance_frame _ _ _ Ha) as (Hsz & _ & _ & _ & L1 & _).
  specialize (L1 L).
  assert (C1 : counting (curr c1)).
  { revert Ha. rewrite advance_cases.
    destruct (size c =? 0); [discriminate|].
    destruct (1 <=? _); intros H; injection H as <-; exact C. }
  set (c2 := set_curr (Sync now (AddCount n (curr c1))) c1).
  assert (Hst : Start (curr c2) = Start (curr c1)).
  { cbn. rewrite lawful_Start_Sync, lawful_Start_AddCount; auto. }
  assert (Hcnt : Count (curr c2) = int64_add (Count (curr c1)) n).
  { cbn. unfold Count, Sync, AddCount. cbn.
    rewrite (Count_Sync _ _ C1), (Count_AddCount _ _ C1). reflexivity. }
  assert (Ha2 : advance now c2 = Ok c2).
  { apply (advance_below_one now c2 diff); [|exact Hlt].
    rewrite Hst. exact Hdiv. }
  eexists. exists c1, c2. split; [|split].
  - unfold Counter_Count. rewrite Ha. cbn. reflexivity.
  - unfold Counter_AddN. rewrite Ha. reflexivity.
  - unfold Counter_Count. rewrite Ha2. cbn [bind].
    rewrite Hst, Hcnt. change (prev c2) with (prev c1).
    change (size c2) with (size c1).
    rewrite int64_add_assoc. reflexivity.
Qed.

End Further.

(** ** A size that is not positive *)

Lemma Time_Truncate_nonpositive (t : Time) (d : Duration) :
  d <= 0 -> Time_Truncate t d = t.
Proof.
  intros H. unfold Time_Truncate. destruct (Z.leb_spec d 0); [reflexivity|lia].
Qed.

Lemma Time_Sub_nonneg (t u : Time) : u <= t -> 0 <= Time_Sub t u <= maxInt64.
Proof.
  intros H. pose proof (Time_Sub_range t u) as R. unfold in_int64 in R.
  split; [|lia].
  unfold Time_Sub, minDuration, maxDuration.
  destruct (Z.ltb_spec (t - u) minInt64); [unfold minInt64 in *; lia|].
  destruct (Z.ltb_spec maxInt64 (t - u)); [unfold maxInt64; lia|lia].
Qed.

(** X3.  A counter of negative size never rotates while time moves
    forward: for every instant not before the current start, [advance]
    returns the counter as it is, however long ago the window started. *)
Theorem negative_size_never_rotates (now : Time) (c : Counter) :
  size c < 0 -> Start (curr c) <= now -> advance now c = Ok c.
Proof.
  intros Hsize Hle.
  assert (Hnz : size c <> 0) by lia.
  apply (advance_below_one now c _ (int64_div_Ok _ _ Hnz)).
  rewrite Time_Truncate_nonpositive by lia.
  pose proof (Time_Sub_nonneg now (Start (curr c)) Hle) as Hx.
  set (x := Time_Sub now (Start (curr c))) in *.
  assert (Hq : - x <= Z.quot x (size c) <= 0).
  { clear - Hx Hsize. destruct Hx as [Hx _].
    Z.to_euclidean_division_equations. nia. }
  rewrite wrap64_id; [lia|].
  unfold in_int64, minInt64, maxInt64 in *. lia.
Qed.

(** X4.  A counter of negative size rotates when the clock is behind the
    current start by at least the size: the current window then starts at
    [now] itself ([Truncate] does not align for such a size) and the
    previous window starts after it. *)
Theorem negative_size_rotates_backward (now : Time) (c : Counter) :
  minInt64 < size c < 0 ->
  lawful (curr c) -> lawful (prev c) ->
  minInt64 < now - Start (curr c) <= size c ->
  exists c' : Counter,
    advance now c = Ok c' /\
    Start (curr c') = now /\
    Start (prev c') = now - size c /\
    Start (curr c') < Start (prev c').
Proof.
  intros Hsize Lc Lp Hx.
  assert (Hnz : size c <> 0) by lia.
  rewrite advance_cases.
  destruct (Z.eqb_spec (size c) 0); [contradiction|].
  rewrite Time_Truncate_nonpositive by lia.
  rewrite Time_Sub_exact
    by (unfold in_int64, minInt64, maxInt64 in *; lia).
  set (x := now - Start (curr c)) in *.
  assert (Hq : 1 <= Z.quot x (size c) <= - x).
  { assert (Hx0 : x <= size c) by lia. assert (Hs0 : size c < 0) by lia.
    clear - Hx0 Hs0. Z.to_euclidean_division_equations. nia. }
  rewrite wrap64_id
    by (unfold in_int64, minInt64, maxInt64 in *; lia).
  destruct (Z.leb_spec 1 (Z.quot x (size c))); [|lia].
  eexists. split; [reflexivity|]. cbn.
  rewrite !lawful_Start_Reset by assumption.
  unfold Time_Add, int64_neg.
  rewrite wrap64_id by (unfold in_int64, minInt64, maxInt64 in *; lia).
  lia.
Qed.

(** ** The weight *)

(** X5.  With a positive size, an aligned current start and a clock not
    behind it, the counter that [advance] leaves has
    [0 <= elapsed < size]: in [Count] the subtraction [size - elapsed] does
    not wrap and the numerator of the weight lies in [(0, size]]. *)
Theorem weight_numerator_bounds (now : Time) (c c1 : Counter) :
  0 < size c <= maxInt64 ->
  lawful (curr c) ->
  Start (curr c) mod size c = 0 -> Start (curr c) <= now ->
  advance now c = Ok c1 ->
  let elapsed := Time_Sub now (Start (curr c1)) in
  elapsed = now - Start (curr c1) /\
  0 <= elapsed < size c1 /\
  int64_sub (size c1) elapsed = size c1 - elapsed /\
  0 < size c1 - elapsed <= size c1.
Proof.
  intros Hsize L Hal Hle Ha. cbn zeta.
  pose proof (advance_curr_start now c c1 Hsize L Hal Hle Ha) as Hst.
  destruct (advance_frame _ _ _ Ha) as (Hsz & _).
  destruct (Time_Truncate_aligned now (size c) ltac:(lia)) as [_ Hin].
  rewrite Hst, Hsz.
  assert (He : Time_Sub now (Time_Truncate now (size c))
               = now - Time_Truncate now (size c)).
  { apply Time_Sub_exact. unfold in_int64, minInt64, maxInt64 in *. lia. }
  rewrite He. split; [reflexivity|]. split; [lia|].
  split; [|lia].
  unfold int64_sub. apply wrap64_id.
  unfold in_int64, minInt64, maxInt64 in *. lia.
Qed.


(** ** The loop of [Sync] *)

(** X7.  The loop of [Sync], along any schedule: it never touches the size,
    the previous window, [syncInterval] or [syncStopCh]; it returns only if
    the stop channel was closed; and on a backend whose [Sync] keeps start
    and count the current window shows the same start and count. *)
Theorem Sync_loop_frame (interval : Duration) (sched : list SelectCase)
    (c c' : Counter) (st : LoopStatus) :
  Counter_Sync interval sched c = Some (st, c') ->
  size c' = size c /\ prev c' = prev c /\
  syncInterval c' = syncInterval c /\ syncStopCh c' = syncStopCh c /\
  (st = Returned -> syncStopCh c = ClosedChan) /\
  (lawful (curr c) -> Start (curr c') = Start (curr c)) /\
  (counting (curr c) -> Count (curr c') = Count (curr c)).
Proof.
  revert c. induction sched as [|k sched IH]; intros c; cbn.
  - intros H. injection H as <- <-.
    repeat split; auto; discriminate.
  - destruct k as [now|]; cbn.
    + intros H. destruct (IH _ H) as (H1 & H2 & H3 & H4 & H5 & H6 & H7).
      cbn in *. repeat split; auto.
      * intros L. rewrite (H6 L). apply lawful_Start_Sync. exact L.
      * intros C. rewrite (H7 C). unfold Count, Sync. cbn.
        apply (Count_Sync _ _ C).
    + destruct (syncStopCh c) eqn:E; cbn; try discriminate.
      intros H. injection H as <- <-. repeat split; auto.
Qed.

(** ** Binary64 arithmetic *)

(** The number of binary digits and the value. *)
Lemma digits2_pos_size (p : positive) : digits2_pos p = Pos.size p.
Proof. induction p; cbn; congruence. Qed.

Lemma digits2_pos_bounds (p : positive) :
  2 ^ (Z.pos (digits2_pos p) - 1) <= Z.pos p < 2 ^ Z.pos (digits2_pos p).
Proof.
  induction p as [p IH|p IH|]; cbn [digits2_pos].
  - rewrite Pos2Z.inj_succ.
    replace (Z.succ (Z.pos (digits2_pos p)) - 1)
      with (Z.succ (Z.pos (digits2_pos p) - 1)) by lia.
    rewrite !Z.pow_succ_r by lia. lia.
  - rewrite Pos2Z.inj_succ.
    replace (Z.succ (Z.pos (digits2_pos p)) - 1)
      with (Z.succ (Z.pos (digits2_pos p) - 1)) by lia.
    rewrite !Z.pow_succ_r by lia. lia.
  - cbn. lia.
Qed.

Lemma Zdigits2_upper (m j : Z) : 0 <= j -> 0 <= m < 2 ^ j -> Zdigits2 m <= j.
Proof.
  intros Hj [H0 Hm]. destruct m as [|p|p]; cbn; [lia| |lia].
  destruct (digits2_pos_bounds p) as [Hlo _].
  destruct (Z.le_gt_cases (Z.pos (digits2_pos p)) j) as [|Hgt]; [assumption|].
  assert (2 ^ j <= 2 ^ (Z.pos (digits2_pos p) - 1))
    by (apply Z.pow_le_mono_r; lia).
  lia.
Qed.

Lemma Zdigits2_nonneg (m : Z) : 0 <= Zdigits2 m.
Proof. destruct m; cbn; lia. Qed.

(** Shifting a mantissa right. *)
Lemma shr_1_m (mrs : shr_record) :
  0 <= shr_m mrs -> shr_m (shr_1 mrs) = shr_m mrs / 2.
Proof.
  destruct mrs as [m r s]. cbn [shr_m]. intros H.
  rewrite <- Z.div2_div.
  destruct m as [|[p|p|]|p]; try reflexivity; lia.
Qed.

Lemma pow2_xO (p : positive) : 2 ^ Z.pos p~0 = 2 ^ Z.pos p * 2 ^ Z.pos p.
Proof.
  rewrite <- Z.pow_add_r by lia. f_equal. lia.
Qed.

Lemma pow2_xI (p : positive) :
  2 ^ Z.pos p~1 = 2 * (2 ^ Z.pos p * 2 ^ Z.pos p).
Proof.
  rewrite <- Z.pow_add_r by lia.
  replace (Z.pos p~1) with (Z.succ (Z.pos p + Z.pos p)) by lia.
  rewrite Z.pow_succ_r by lia. reflexivity.
Qed.

Lemma iter_pos_shr_1_m (p : positive) (mrs : shr_record) :
  0 <= shr_m mrs ->
  shr_m (iter_pos shr_1 p mrs) = shr_m mrs / 2 ^ Z.pos p.
Proof.
  revert mrs. induction p as [p IH|p IH|]; intros mrs H; cbn [iter_pos].
  - assert (Hp : 0 < 2 ^ Z.pos p) by (apply Z.pow_pos_nonneg; lia).
    assert (H1 : 0 <= shr_m (shr_1 mrs))
      by (rewrite shr_1_m by exact H; apply Z.div_pos; lia).
    assert (H2 : 0 <= shr_m (iter_pos shr_1 p (shr_1 mrs)))
      by (rewrite IH by exact H1; apply Z.div_pos; lia).
    rewrite IH by exact H2. rewrite IH by exact H1.
    rewrite shr_1_m by exact H.
    rewrite pow2_xI. rewrite !Z.div_div by lia. reflexivity.
  - assert (Hp : 0 < 2 ^ Z.pos p) by (apply Z.pow_pos_nonneg; lia).
    assert (H1 : 0 <= shr_m (iter_pos shr_1 p mrs))
      by (rewrite IH by exact H; apply Z.div_pos; lia).
    rewrite IH by exact H1. rewrite IH by exact H.
    rewrite pow2_xO. rewrite Z.div_div by lia. reflexivity.
  - rewrite shr_1_m by exact H. reflexivity.
Qed.

Lemma shr_record_of_loc_m (m : Z) (l : location) :
  shr_m (shr_record_of_loc m l) = m.
Proof. destruct l as [|[| |]]; reflexivity. Qed.

(** [shr_fexp]: the mantissa is divided by [2 ^ k] and the exponent raised
    by [k], for the [k] that brings the exponent to [fexp]. *)
Lemma shr_fexp_spec (m e : Z) (l : location) :
  0 <= m ->
  let k := Z.max 0 (fexp prec emax (Zdigits2 m + e) - e) in
  shr_m (fst (shr_fexp prec emax m e l)) = m / 2 ^ k /\
  snd (shr_fexp prec emax m e l) = e + k.
Proof.
  intros Hm k. unfold shr_fexp, shr. subst k.
  destruct (fexp prec emax (Zdigits2 m + e) - e) as [|p|p] eqn:E; cbn [fst snd].
  - rewrite shr_record_of_loc_m. cbn. rewrite Z.div_1_r. lia.
  - rewrite iter_pos_shr_1_m by (rewrite shr_record_of_loc_m; exact Hm).
    rewrite shr_record_of_loc_m. rewrite Z.max_r by lia. auto.
  - rewrite shr_record_of_loc_m. rewrite Z.max_l by lia.
    cbn. rewrite Z.div_1_r. lia.
Qed.

Lemma round_nearest_even_bounds (m : Z) (l : location) :
  m <= round_nearest_even m l <= m + 1.
Proof.
  destruct l as [|[| |]]; cbn; try lia. destruct (Z.even m); lia.
Qed.

Lemma fexp_eq (z : Z) : fexp prec emax z = Z.max (z - 53) (- 1074).
Proof. reflexivity. Qed.

Lemma div_pow2_lt (m a k : Z) :
  0 <= m < 2 ^ a -> 0 <= k <= a -> 0 <= m / 2 ^ k < 2 ^ (a - k).
Proof.
  intros Hm Hk.
  assert (Hp : 0 < 2 ^ k) by (apply Z.pow_pos_nonneg; lia).
  split; [apply Z.div_pos; lia|].
  apply Z.div_lt_upper_bound; [exact Hp|].
  rewrite <- Z.pow_add_r by lia.
  replace (k + (a - k)) with a by lia. lia.
Qed.

(** The result of rounding a mantissa that is not negative, of value below
    [2 ^ K]: a zero or a finite float, of value below [2 ^ (K + 1)]. *)
Lemma binary_round_aux_below (s : bool) (mx ex : Z) (lx : location) (K : Z) :
  0 <= mx < 2 ^ (K - ex) -> ex <= K -> - 1074 <= K <= 1023 -> ex <= 971 ->
  match binary_round_aux prec emax s mx ex lx with
  | S754_zero s' => s' = s
  | S754_finite s' m e => s' = s /\ Z.pos m < 2 ^ (K + 1 - e) /\ ex <= e
  | _ => False
  end.
Proof.
  intros Hmx HexK HK Hex. unfold binary_round_aux.
  destruct (shr_fexp_spec mx ex lx ltac:(lia)) as [Hm1 He1].
  destruct (shr_fexp prec emax mx ex lx) as [mrs1 e1]. cbn [fst snd] in *.
  rewrite fexp_eq in Hm1, He1.
  set (k1 := Z.max 0 (Z.max (Zdigits2 mx + ex - 53) (- 1074) - ex)) in *.
  pose proof (Zdigits2_upper mx (K - ex) ltac:(lia) Hmx) as Hdx.
  pose proof (Zdigits2_nonneg mx) as Hdx0.
  assert (Hk1 : 0 <= k1 <= K - ex) by (subst k1; lia).
  assert (He1K : e1 <= K /\ e1 <= 971 /\ ex <= e1) by (subst k1; lia).
  pose proof (div_pow2_lt mx (K - ex) k1 Hmx Hk1) as Hm1b.
  rewrite <- Hm1 in Hm1b.
  replace (K - ex - k1) with (K - e1) in Hm1b by lia.
  pose proof (round_nearest_even_bounds (shr_m mrs1)
                (loc_of_shr_record mrs1)) as Hr.
  set (m2 := round_nearest_even (shr_m mrs1) (loc_of_shr_record mrs1)) in *.
  assert (Hm2 : 0 <= m2 < 2 ^ (K + 1 - e1)).
  { split; [lia|].
    replace (K + 1 - e1) with (Z.succ (K - e1)) by lia.
    rewrite Z.pow_succ_r by lia. lia. }
  destruct (shr_fexp_spec m2 e1 loc_Exact ltac:(lia)) as [Hm3 He3].
  destruct (shr_fexp prec emax m2 e1 loc_Exact) as [mrs2 e2].
  cbn [fst snd] in *.
  rewrite fexp_eq in Hm3, He3.
  set (k2 := Z.max 0 (Z.max (Zdigits2 m2 + e1 - 53) (- 1074) - e1)) in *.
  pose proof (Zdigits2_upper m2 (K + 1 - e1) ltac:(lia) Hm2) as Hd2.
  pose proof (Zdigits2_nonneg m2) as Hd20.
  assert (Hk2 : 0 <= k2 <= K + 1 - e1) by (subst k2; lia).
  assert (He2 : e2 <= 971 /\ e1 <= e2) by (subst k2; lia).
  pose proof (div_pow2_lt m2 (K + 1 - e1) k2 Hm2 Hk2) as Hm3b.
  rewrite <- Hm3 in Hm3b.
  replace (K + 1 - e1 - k2) with (K + 1 - e2) in Hm3b by lia.
  destruct (shr_m mrs2) as [|m|m]; [reflexivity| |lia].
  change (emax - prec) with 971.
  destruct (Z.leb_spec e2 971); [|lia].
  repeat split; lia.
Qed.

(** Rounding a positive mantissa above the subnormal range does not give
    zero. *)
Lemma binary_round_aux_nonzero (s : bool) (mx ex : Z) (lx : location) :
  0 < mx -> - 1021 <= ex ->
  forall s', binary_round_aux prec emax s mx ex lx <> S754_zero s'.
Proof.
  intros Hmx Hex s'. unfold binary_round_aux.
  destruct (shr_fexp_spec mx ex lx ltac:(lia)) as [Hm1 He1].
  destruct (shr_fexp prec emax mx ex lx) as [mrs1 e1]. cbn [fst snd] in *.
  rewrite fexp_eq in Hm1, He1.
  set (k1 := Z.max 0 (Z.max (Zdigits2 mx + ex - 53) (- 1074) - ex)) in *.
  assert (Hge : forall m k, 0 < m -> k = Z.max 0 (Zdigits2 m - 53) ->
                            1 <= m / 2 ^ k).
  { intros m k Hm ->. destruct m as [|p|p]; try lia. cbn [Zdigits2].
    destruct (digits2_pos_bounds p) as [Hlo _].
    apply Z.div_le_lower_bound; [apply Z.pow_pos_nonneg; lia|].
    rewrite Z.mul_1_r.
    transitivity (2 ^ (Z.pos (digits2_pos p) - 1)); [|exact Hlo].
    apply Z.pow_le_mono_r; lia. }
  assert (Hd : 1 <= Zdigits2 mx) by (destruct mx; cbn; lia).
  assert (Hm1' : 1 <= shr_m mrs1).
  { rewrite Hm1. apply Hge; [exact Hmx|]. subst k1. lia. }
  pose proof (round_nearest_even_bounds (shr_m mrs1)
                (loc_of_shr_record mrs1)) as Hr.
  set (m2 := round_nearest_even (shr_m mrs1) (loc_of_shr_record mrs1)) in *.
  destruct (shr_fexp_spec m2 e1 loc_Exact ltac:(lia)) as [Hm3 He3].
  destruct (shr_fexp prec emax m2 e1 loc_Exact) as [mrs2 e2].
  cbn [fst snd] in *.
  rewrite fexp_eq in Hm3, He3.
  set (k2 := Z.max 0 (Z.max (Zdigits2 m2 + e1 - 53) (- 1074) - e1)) in *.
  assert (Hd2 : 1 <= Zdigits2 m2) by (destruct m2; cbn; lia).
  assert (Hm3' : 1 <= shr_m mrs2).
  { rewrite Hm3. apply Hge; [lia|]. subst k1 k2. lia. }
  destruct (shr_m mrs2) as [|m|m]; try lia.
  destruct (e2 <=? emax - prec); discriminate.
Qed.

Lemma Pos_iter_xO (p n : positive) :
  Z.pos (Pos.iter xO p n) = Z.pos p * 2 ^ Z.pos n.
Proof.
  induction n as [|n IH] using Pos.peano_ind.
  - cbn [Pos.iter]. change (2 ^ 1) with 2. lia.
  - rewrite Pos.iter_succ, Pos2Z.inj_xO, IH, Pos2Z.inj_succ.
    rewrite Z.pow_succ_r by lia. lia.
Qed.

(** The conversion of a non-zero [int64]: a finite float. *)
Lemma int64_to_float64_finite (x : int64) :
  in_int64 x -> x <> 0 ->
  exists (s : bool) (m : positive) (e : Z),
    int64_to_float64 x = S754_finite s m e /\
    Z.pos m < 2 ^ (65 - e) /\ - 52 <= e.
Proof.
  intros Hx Hnz.
  assert (Hp : forall (s : bool) (p : positive),
             Z.pos p <= 2 ^ 63 ->
             exists (m : positive) (e : Z),
               binary_round prec emax s p 0 = S754_finite s m e /\
               Z.pos m < 2 ^ (65 - e) /\ - 52 <= e).
  { intros s p Hp. unfold binary_round, shl_align.
    rewrite fexp_eq.
    destruct (digits2_pos_bounds p) as [Hlo Hhi].
    set (d := Z.pos (digits2_pos p)) in *.
    assert (Hd : 1 <= d <= 64).
    { split; [subst d; lia|].
      destruct (Z.le_gt_cases d 64) as [|Hgt]; [assumption|].
      assert (2 ^ 64 <= 2 ^ (d - 1)) by (apply Z.pow_le_mono_r; lia). lia. }
    replace (Z.max (d + 0 - 53) (- 1074) - 0) with (d - 53) by lia.
    assert (Hfin : forall mz ez, 0 < mz < 2 ^ (64 - ez) -> - 52 <= ez <= 0 ->
      exists (m : positive) (e : Z),
        binary_round_aux prec emax s mz ez loc_Exact = S754_finite s m e /\
        Z.pos m < 2 ^ (65 - e) /\ - 52 <= e).
    { intros mz ez Hmz Hez.
      pose proof (binary_round_aux_below s mz ez loc_Exact 64
                    ltac:(lia) ltac:(lia) ltac:(lia) ltac:(lia)) as Hb.
      pose proof (binary_round_aux_nonzero s mz ez loc_Exact
                    ltac:(lia) ltac:(lia)) as Hn.
      destruct (binary_round_aux prec emax s mz ez loc_Exact)
        as [s'|s'| |s' m e]; try contradiction.
      - exfalso. apply (Hn s'). reflexivity.
      - destruct Hb as (-> & Hm & He). exists m, e.
        split; [reflexivity|]. split; [exact Hm|lia]. }
    destruct (d - 53) as [|q|q] eqn:E.
    - apply Hfin; [|lia]. split; [lia|].
      transitivity (2 ^ d); [exact Hhi|]. apply Z.pow_lt_mono_r; lia.
    - apply Hfin; [|lia]. split; [lia|].
      assert (2 ^ 63 < 2 ^ (64 - 0)) by (apply Z.pow_lt_mono_r; lia). lia.
    - replace (Z.max (d + 0 - 53) (- 1074)) with (d - 53) by lia.
      apply Hfin; [|lia]. rewrite Pos_iter_xO.
      split; [lia|].
      assert (Z.pos p * 2 ^ Z.pos q < 2 ^ d * 2 ^ Z.pos q)
        by (apply Z.mul_lt_mono_pos_r; [apply Z.pow_pos_nonneg; lia|lia]).
      rewrite <- Z.pow_add_r in H by lia.
      assert (2 ^ (d + Z.pos q) <= 2 ^ (64 - (d - 53)))
        by (apply Z.pow_le_mono_r; lia).
      lia. }
  unfold int64_to_float64, binary_normalize.
  unfold in_int64, minInt64, maxInt64 in Hx.
  destruct x as [|p|p]; [contradiction| |].
  - destruct (Hp false p ltac:(lia)) as (m & e & H). exists false, m, e. exact H.
  - destruct (Hp true p ltac:(lia)) as (m & e & H). exists true, m, e. exact H.
Qed.

(** The quotient of two converted integers, the divisor not zero, is a
    number. *)
Lemma float64_div_finite (s1 s2 : bool) (m1 m2 : positive) (e1 e2 : Z) :
  Z.pos m1 < 2 ^ (65 - e1) -> - 52 <= e1 ->
  Z.pos m2 < 2 ^ (65 - e2) -> - 52 <= e2 ->
  float64_is_finite
    (float64_div (S754_finite s1 m1 e1) (S754_finite s2 m2 e2)) = true.
Proof.
  intros Hm1 He1 Hm2 He2.
  assert (Hexp : forall (m : positive) (e : Z),
             Z.pos m < 2 ^ (65 - e) -> e <= 64).
  { intros m e Hm.
    destruct (Z.le_gt_cases e 64) as [|Hgt]; [assumption|exfalso].
    assert (2 ^ (65 - e) <= 1).
    { destruct (Z.eq_dec e 65) as [->|]; [cbn; lia|].
      rewrite Z.pow_neg_r by lia. lia. }
    lia. }
  pose proof (Hexp _ _ Hm1) as He1'. pose proof (Hexp _ _ Hm2) as He2'.
  unfold float64_div, SFdiv, SFdiv_core_binary.
  set (e' := Z.min (fexp prec emax
                      (Zdigits2 (Z.pos m1) + e1 - (Zdigits2 (Z.pos m2) + e2)))
                   (e1 - e2)).
  assert (He' : - 1074 <= e' <= e1 - e2)
    by (subst e'; rewrite fexp_eq; lia).
  set (s := e1 - e2 - e').
  assert (Hs : 0 <= s) by (subst s; lia).
  set (m' := match s with
             | 0 => Z.pos m1
             | Z.pos _ => Z.shiftl (Z.pos m1) s
             | Z.neg _ => 0
             end).
  assert (Hm' : m' = Z.pos m1 * 2 ^ s).
  { subst m'. destruct s as [|p|p] eqn:E; [cbn; lia| |lia].
    rewrite Z.shiftl_mul_pow2 by lia. reflexivity. }
  assert (Hm'b : 0 <= m' < 2 ^ (65 - e1 + s)).
  { rewrite Hm'. split; [apply Z.mul_nonneg_nonneg; [lia|];
                         apply Z.pow_nonneg; lia|].
    rewrite Z.pow_add_r by lia.
    apply Z.mul_lt_mono_pos_r; [apply Z.pow_pos_nonneg; lia|lia]. }
  assert (Hq : Z.div_eucl m' (Z.pos m2) = (m' / Z.pos m2, m' mod Z.pos m2)).
  { unfold Z.div, Z.modulo. destruct (Z.div_eucl m' (Z.pos m2)). reflexivity. }
  rewrite Hq.
  assert (Hqb : 0 <= m' / Z.pos m2 <= m').
  { split; [apply Z.div_pos; lia|].
    apply Z.div_le_upper_bound; [lia|]. nia. }
  assert (Hpow : 2 ^ (65 - e1 + s) <= 2 ^ (117 - e'))
    by (apply Z.pow_le_mono_r; subst s; lia).
  pose proof (binary_round_aux_below (xorb s1 s2) (m' / Z.pos m2) e'
                (new_location (Z.pos m2) (m' mod Z.pos m2)) 117
                ltac:(lia) ltac:(lia) ltac:(lia) ltac:(lia)) as Hb.
  destruct (binary_round_aux prec emax (xorb s1 s2) (m' / Z.pos m2) e'
              (new_location (Z.pos m2) (m' mod Z.pos m2)));
    [reflexivity|contradiction|contradiction|reflexivity].
Qed.

Section FloatCount.
Context {P : Platform}.

(** The weight of [Count] is a number, for every size but zero. *)
Lemma weight_is_finite (sz elapsed : int64) :
  in_int64 sz -> sz <> 0 ->
  float64_is_finite
    (float64_div (int64_to_float64 (int64_sub sz elapsed))
                 (int64_to_float64 sz)) = true.
Proof.
  intros Hsz Hnz.
  destruct (int64_to_float64_finite sz Hsz Hnz) as (s2 & m2 & e2 & E2 & B2 & L2).
  rewrite E2.
  destruct (Z.eq_dec (int64_sub sz elapsed) 0) as [E0|Hn0].
  - rewrite E0. reflexivity.
  - destruct (int64_to_float64_finite (int64_sub sz elapsed)
                (wrap64_range _) Hn0) as (s1 & m1 & e1 & E1 & B1 & L1).
    rewrite E1. apply float64_div_finite; assumption.
Qed.

(** A number times the conversion of 0 converts back to 0. *)
Lemma float64_mul_zero (w : float64) :
  float64_is_finite w = true ->
  float64_to_int64 (float64_mul w (int64_to_float64 0)) = 0.
Proof.
  destruct w; try discriminate; reflexivity.
Qed.

(** X8.  When the previous window holds no count after [advance], [Count]
    returns the count of the current window, for every instant and every
    size but zero: the weight is always a number, and times 0 it converts
    to 0. *)
Theorem Count_without_previous (now : Time) (c c1 : Counter) :
  in_int64 (size c) ->
  advance now c = Ok c1 ->
  Count (prev c1) = 0 ->
  in_int64 (Count (curr c1)) ->
  Counter_Count now c = Ok (Count (curr c1), c1).
Proof.
  intros Hsz Ha Hp Hc.
  destruct (advance_frame _ _ _ Ha) as (Hs1 & _).
  assert (Hnz : size c <> 0).
  { intros E. rewrite (advance_size_zero now c E) in Ha. discriminate. }
  unfold Counter_Count. rewrite Ha. cbn [bind].
  rewrite Hp, Hs1.
  rewrite float64_mul_zero by (apply weight_is_finite; assumption).
  unfold int64_add. rewrite wrap64_id by exact Hc. reflexivity.
Qed.

(** X9.  After a gap of more than one window ([diff > 1]) [Count] returns
    0: both windows are reset to count 0. *)
Theorem Count_after_gap (now : Time) (c : Counter) (diff : int64) :
  in_int64 (size c) ->
  lawful (curr c) -> lawful (prev c) ->
  int64_div (Time_Sub (Time_Truncate now (size c)) (Start (curr c)))
            (size c) = Ok diff ->
  1 < diff ->
  exists c1 : Counter,
    Counter_Count now c = Ok (0, c1) /\
    Count (prev c1) = 0 /\ Count (curr c1) = 0.
Proof.
  intros Hsz Lc Lp Hdiv Hdiff.
  assert (Ha : exists c1, advance now c = Ok c1 /\
                          Count (prev c1) = 0 /\ Count (curr c1) = 0).
  { unfold advance. rewrite Hdiv. cbn [bind].
    destruct (Z.leb_spec 1 diff); [|lia].
    destruct (Z.eqb_spec diff 1); [lia|].
    eexists. split; [reflexivity|]. cbn.
    rewrite !lawful_Count_Reset by assumption. auto. }
  destruct Ha as (c1 & Ha & Hp & Hc).
  exists c1. split; [|auto].
  rewrite <- Hc at 1.
  apply Count_without_previous; try assumption.
  rewrite Hc. unfold in_int64, minInt64, maxInt64. lia.
Qed.

(** X10.  A new counter, built on a factory whose window is lawful and
    empty, counts 0 at every instant, whether or not the first [Count]
    rotates. *)
Theorem new_counter_counts_zero {World : Type} (sz : Duration)
    (newWindow : NewWindow World) (si : Duration) (now : Time) :
  in_int64 sz -> sz <> 0 ->
  lawful (fst (newWindow tt)) -> Count (fst (newWindow tt)) = 0 ->
  exists c1 : Counter,
    Counter_Count now (fst (fst (NewCounter sz newWindow si))) = Ok (0, c1).
Proof.
  intros Hsz Hnz L Hc0. rewrite NewCounter_unfold. cbn [fst].
  set (c := mkCounter sz (fst (newWindow tt))
              (LocalWindow_iface (mkLocalWindow 0 0)) si NilChan).
  assert (Ha : exists c1, advance now c = Ok c1 /\
                          Count (prev c1) = 0 /\ Count (curr c1) = 0).
  { rewrite advance_cases. cbn [size curr prev c].
    destruct (Z.eqb_spec sz 0); [contradiction|].
    destruct (1 <=? _).
    - eexists. split; [reflexivity|]. cbn.
      rewrite lawful_Count_Reset by exact L. rewrite Hc0.
      split; [|reflexivity]. destruct (_ =? 1); reflexivity.
    - exists c. split; [reflexivity|]. cbn. auto. }
  destruct Ha as (c1 & Ha & Hp & Hc).
  exists c1. rewrite <- Hc at 1.
  apply Count_without_previous; try assumption.
  rewrite Hc. unfold in_int64, minInt64, maxInt64. lia.
Qed.

End FloatCount.

(** A finite float divided by itself is 1. *)
Lemma float64_div_self (s : bool) (m : positive) (e : Z) :
  float64_div (S754_finite s m e) (S754_finite s m e) = float64_one.
Proof.
  unfold float64_div, SFdiv, SFdiv_core_binary.
  rewrite !Z.sub_diag, xorb_nilpotent.
  change (Z.min (fexp prec emax 0) 0) with (- 53).
  change (0 - - 53) with 53.
  cbv iota beta.
  assert (Hq : Z.div_eucl (Z.shiftl (Z.pos m) 53) (Z.pos m) = (2 ^ 53, 0)).
  { rewrite Z.shiftl_mul_pow2 by lia.
    assert (E : Z.div_eucl (Z.pos m * 2 ^ 53) (Z.pos m)
                = ((Z.pos m * 2 ^ 53) / Z.pos m,
                   (Z.pos m * 2 ^ 53) mod Z.pos m)).
    { unfold Z.div, Z.modulo.
      destruct (Z.div_eucl (Z.pos m * 2 ^ 53) (Z.pos m)). reflexivity. }
    rewrite E. rewrite (Z.mul_comm (Z.pos m)).
    rewrite Z.div_mul, Z.mod_mul by lia. reflexivity. }
  rewrite Hq.
  assert (Hl : new_location (Z.pos m) 0 = loc_Exact).
  { unfold new_location. destruct (Z.even (Z.pos m)); reflexivity. }
  rewrite Hl. vm_compute. reflexivity.
Qed.

(** Rounding does nothing to a mantissa of 53 digits. *)
Lemma binary_round_aux_canonical (s : bool) (m : positive) (e : Z) :
  Z.pos (digits2_pos m) = 53 -> - 1021 <= e <= 971 ->
  binary_round_aux prec emax s (Z.pos m) e loc_Exact = S754_finite s m e.
Proof.
  intros Hd He. unfold binary_round_aux, shr_fexp.
  cbn [shr_record_of_loc Zdigits2]. rewrite Hd, fexp_eq.
  replace (Z.max (53 + e - 53) (- 1074) - e) with 0 by lia.
  cbn [shr shr_m loc_of_shr_record round_nearest_even shr_record_of_loc
       Zdigits2].
  rewrite Hd, fexp_eq.
  replace (Z.max (53 + e - 53) (- 1074) - e) with 0 by lia.
  cbn [shr shr_m]. change (emax - prec) with 971.
  destruct (Z.leb_spec e 971); [reflexivity|lia].
Qed.

Lemma digits2_pos_iter_xO (p n : positive) :
  Z.pos (digits2_pos (Pos.iter xO p n)) = Z.pos (digits2_pos p) + Z.pos n.
Proof.
  induction n as [|n IH] using Pos.peano_ind.
  - cbn [Pos.iter digits2_pos]. lia.
  - rewrite Pos.iter_succ. cbn [digits2_pos].
    rewrite Pos2Z.inj_succ, IH. lia.
Qed.

(** The conversion of an integer below [2 ^ 53] in absolute value is exact:
    a float of 53 digits that converts back to the integer. *)
Lemma int64_to_float64_exact (x : int64) :
  Z.abs x < 2 ^ 53 -> x <> 0 ->
  exists (s : bool) (m : positive) (e : Z),
    int64_to_float64 x = S754_finite s m e /\
    Z.pos (digits2_pos m) = 53 /\ - 52 <= e <= 0 /\
    float64_trunc (S754_finite s m e) = Some x.
Proof.
  intros Hx Hnz.
  assert (Hp : forall (s : bool) (p : positive),
             Z.pos p < 2 ^ 53 ->
             exists (m : positive) (e : Z),
               binary_round prec emax s p 0 = S754_finite s m e /\
               Z.pos (digits2_pos m) = 53 /\ - 52 <= e <= 0 /\
               Z.shiftl (Z.pos m) e = Z.pos p).
  { intros s p Hp. unfold binary_round, shl_align. rewrite fexp_eq.
    destruct (digits2_pos_bounds p) as [Hlo Hhi].
    set (d := Z.pos (digits2_pos p)) in *.
    assert (Hd : 1 <= d <= 53).
    { split; [subst d; lia|].
      destruct (Z.le_gt_cases d 53) as [|Hgt]; [assumption|].
      assert (2 ^ 53 <= 2 ^ (d - 1)) by (apply Z.pow_le_mono_r; lia). lia. }
    replace (Z.max (d + 0 - 53) (- 1074) - 0) with (d - 53) by lia.
    destruct (d - 53) as [|q|q] eqn:E; [|lia|].
    - exists p, 0.
      rewrite binary_round_aux_canonical by (fold d; lia).
      split; [reflexivity|]. fold d. split; [lia|]. split; [lia|].
      reflexivity.
    - replace (Z.max (d + 0 - 53) (- 1074)) with (Z.neg q) by lia.
      exists (Pos.iter xO p q), (Z.neg q).
      assert (Hdq : Z.pos (digits2_pos (Pos.iter xO p q)) = 53)
        by (rewrite digits2_pos_iter_xO; fold d; lia).
      rewrite binary_round_aux_canonical by (try exact Hdq; lia).
      split; [reflexivity|]. split; [exact Hdq|]. split; [lia|].
      rewrite Z.shiftl_div_pow2 by lia. rewrite Pos_iter_xO.
      change (- Z.neg q) with (Z.pos q).
      apply Z.div_mul. apply Z.pow_nonzero; lia. }
  unfold int64_to_float64, binary_normalize.
  destruct x as [|p|p]; [contradiction| |].
  - destruct (Hp false p ltac:(lia)) as (m & e & H1 & H2 & H3 & H4).
    exists false, m, e. repeat split; try assumption; try lia.
    cbn [float64_trunc]. rewrite H4. reflexivity.
  - destruct (Hp true p ltac:(lia)) as (m & e & H1 & H2 & H3 & H4).
    exists true, m, e. repeat split; try assumption; try lia.
    cbn [float64_trunc]. rewrite H4. reflexivity.
Qed.

(** 1 times a float of 53 digits is that float. *)
Lemma float64_mul_one (s : bool) (m : positive) (e : Z) :
  Z.pos (digits2_pos m) = 53 -> - 52 <= e <= 0 ->
  float64_mul float64_one (S754_finite s m e) = S754_finite s m e.
Proof.
  intros Hd He. unfold float64_mul, float64_one, SFmul.
  change (xorb false s) with s.
  unfold binary_round_aux, shr_fexp.
  cbn [Pos.mul Zdigits2 digits2_pos shr_record_of_loc].
  rewrite !Pos2Z.inj_succ, Hd. rewrite fexp_eq.
  match goal with
  | |- context [Z.max ?a (- 1074) - (- 52 + e)] =>
      replace (Z.max a (- 1074) - (- 52 + e)) with 52 by lia
  end.
  cbn [shr iter_pos shr_1 fst snd shr_m loc_of_shr_record orb
       round_nearest_even shr_record_of_loc Zdigits2].
  rewrite Hd, fexp_eq.
  replace (- 52 + e + 52) with e by lia.
  replace (Z.max (53 + e - 53) (- 1074) - e) with 0 by lia.
  cbn [shr shr_m]. change (emax - prec) with 971.
  destruct (Z.leb_spec e 971); [reflexivity|lia].
Qed.

Section Boundary.
Context {P : Platform}.

(** With no time elapsed in the current window the weighted term is the
    previous count itself. *)
Lemma weighted_term_at_start (sz p : int64) :
  in_int64 sz -> sz <> 0 -> Z.abs p < 2 ^ 53 ->
  float64_to_int64
    (float64_mul
       (float64_div (int64_to_float64 (int64_sub sz 0)) (int64_to_float64 sz))
       (int64_to_float64 p)) = p.
Proof.
  intros Hsz Hnz Hp.
  unfold int64_sub. rewrite Z.sub_0_r, wrap64_id by exact Hsz.
  destruct (int64_to_float64_finite sz Hsz Hnz) as (s & m & e & E & _).
  rewrite E, float64_div_self.
  destruct (Z.eq_dec p 0) as [->|Hp0]; [reflexivity|].
  destruct (int64_to_float64_exact p Hp Hp0)
    as (s' & m' & e' & E' & Hd & He & Ht).
  rewrite E', float64_mul_one by assumption.
  apply float64_to_int64_fits; [exact Ht|].
  unfold in_int64, minInt64, maxInt64.
  assert (2 ^ 53 < 2 ^ 63) by (apply Z.pow_lt_mono_r; lia). lia.
Qed.

(** X11.  At the very instant the current window starts ([elapsed = 0])
    the weight is exactly 1: [Count] returns [prev.Count() + curr.Count()],
    for a previous count below [2 ^ 53] in absolute value. *)
Theorem Count_at_bucket_start (now : Time) (c c1 : Counter) :
  in_int64 (size c) ->
  advance now c = Ok c1 ->
  Start (curr c1) = now ->
  Z.abs (Count (prev c1)) < 2 ^ 53 ->
  Counter_Count now c
  = Ok (int64_add (Count (prev c1)) (Count (curr c1)), c1).
Proof.
  intros Hsz Ha Hst Hp.
  destruct (advance_frame _ _ _ Ha) as (Hs1 & _).
  assert (Hnz : size c <> 0).
  { intros E. rewrite (advance_size_zero now c E) in Ha. discriminate. }
  unfold Counter_Count. rewrite Ha. cbn [bind].
  rewrite Hst, Time_Sub_diag, Hs1.
  rewrite weighted_term_at_start by assumption. reflexivity.
Qed.

(** X12.  [Count] at the boundary that ends the current window (start plus
    size) returns the count of that window in full: it rotates once, the
    count moves to the previous window and is weighted by 1. *)
Theorem Count_at_rollover (c : Counter) :
  0 < size c <= maxInt64 ->
  lawful (curr c) -> lawful (prev c) ->
  Start (curr c) mod size c = 0 ->
  Z.abs (Count (curr c)) < 2 ^ 53 ->
  exists c1 : Counter,
    Counter_Count (Start (curr c) + size c) c = Ok (Count (curr c), c1) /\
    Count (prev c1) = Count (curr c) /\ Count (curr c1) = 0 /\
    Start (curr c1) = Start (curr c) + size c.
Proof.
  intros Hsize Lc Lp Hal Hcnt.
  set (now := Start (curr c) + size c).
  assert (Htr : Time_Truncate now (size c) = now).
  { apply Time_Truncate_unique; [lia| |lia].
    subst now. replace (Start (curr c) + size c)
      with (Start (curr c) + 1 * size c) by lia.
    rewrite Z.mod_add by lia. exact Hal. }
  assert (Hsub : Time_Sub now (Start (curr c)) = size c).
  { rewrite Time_Sub_exact; subst now; [lia|].
    unfold in_int64, minInt64, maxInt64 in *. lia. }
  assert (Ha : advance now c
    = Ok (set_curr (Reset now 0 (curr c))
            (set_prev (Reset (Time_Add now (int64_neg (size c)))
                             (Count (curr c)) (prev c)) c))).
  { rewrite advance_cases, Htr, Hsub.
    destruct (Z.eqb_spec (size c) 0); [lia|].
    rewrite Z.quot_same by lia.
    change (wrap64 1) with 1. reflexivity. }
  set (c1 := set_curr (Reset now 0 (curr c))
              (set_prev (Reset (Time_Add now (int64_neg (size c)))
                               (Count (curr c)) (prev c)) c)) in *.
  assert (Hp1 : Count (prev c1) = Count (curr c))
    by (subst c1; cbn [curr prev set_curr set_prev];
        apply lawful_Count_Reset; exact Lp).
  assert (Hc1 : Count (curr c1) = 0)
    by (subst c1; cbn [curr prev set_curr set_prev];
        apply lawful_Count_Reset; exact Lc).
  assert (Hs1 : Start (curr c1) = now)
    by (subst c1; cbn [curr prev set_curr set_prev];
        apply lawful_Start_Reset; exact Lc).
  assert (H53 : 2 ^ 53 < 2 ^ 63) by (apply Z.pow_lt_mono_r; lia).
  exists c1. split; [|auto].
  rewrite (Count_at_bucket_start now c c1); try assumption.
  - rewrite Hp1, Hc1. unfold int64_add.
    rewrite Z.add_0_r, wrap64_id; [reflexivity|].
    unfold in_int64, minInt64, maxInt64. lia.
  - unfold in_int64, minInt64, maxInt64 in *. lia.
  - rewrite Hp1. exact Hcnt.
Qed.

End Boundary.

(** ** Reads do not disturb later reads *)

(** One rotation, as observed through lawful windows. *)
Lemma advance_rotation_observed (now : Time) (c : Counter) (diff : int64) :
  0 < size c <= maxInt64 ->
  lawful (curr c) -> lawful (prev c) ->
  int64_div (Time_Sub (Time_Truncate now (size c)) (Start (curr c)))
            (size c) = Ok diff ->
  1 <= diff ->
  exists c1 : Counter,
    advance now c = Ok c1 /\
    Start (curr c1) = Time_Truncate now (size c) /\
    Count (curr c1) = 0 /\
    Start (prev c1) = Time_Truncate now (size c) - size c /\
    Count (prev c1) = (if diff =? 1 then Count (curr c) else 0).
Proof.
  intros Hsize Lc Lp Hdiv Hdiff.
  unfold advance. rewrite Hdiv. cbn [bind].
  destruct (Z.leb_spec 1 diff); [|lia].
  eexists. split; [reflexivity|]. cbn [curr prev set_curr set_prev].
  rewrite !lawful_Start_Reset, !lawful_Count_Reset by assumption.
  rewrite int64_neg_pos by lia. unfold Time_Add. repeat split; lia.
Qed.

(** What [advance] leaves to be observed, for a positive size, lawful
    windows, an aligned current start and an instant within the range of a
    duration after it: [k] whole windows have passed. *)
Lemma advance_observed (now : Time) (c : Counter) :
  0 < size c <= maxInt64 ->
  lawful (curr c) -> lawful (prev c) ->
  Start (curr c) mod size c = 0 ->
  Start (curr c) <= now -> now - Start (curr c) <= maxInt64 ->
  exists (k : Z) (c1 : Counter),
    advance now c = Ok c1 /\
    size c1 = size c /\ lawful (curr c1) /\ lawful (prev c1) /\
    0 <= k /\ Time_Truncate now (size c) = Start (curr c) + k * size c /\
    Start (curr c1) = Time_Truncate now (size c) /\
    (k = 0 -> c1 = c) /\
    (1 <= k ->
     Count (curr c1) = 0 /\
     Start (prev c1) = Time_Truncate now (size c) - size c /\
     Count (prev c1) = (if k =? 1 then Count (curr c) else 0)).
Proof.
  intros Hsize Lc Lp Hal Hle Hfit.
  destruct (Time_Truncate_aligned now (size c) ltac:(lia)) as [HTal HTin].
  set (T := Time_Truncate now (size c)) in *.
  set (s := Start (curr c)) in *. set (d := size c) in *.
  assert (Hk : exists k, 0 <= k /\ T = s + k * d).
  { apply Z.mod_divide in HTal; [|lia]. apply Z.mod_divide in Hal; [|lia].
    destruct HTal as [b Hb], Hal as [a Ha].
    exists (b - a). split; [|lia]. nia. }
  destruct Hk as (k & Hk0 & HT).
  assert (Hsub : Time_Sub T s = k * d).
  { rewrite Time_Sub_exact; [lia|].
    unfold in_int64, minInt64, maxInt64 in *. nia. }
  assert (Hq : wrap64 (Z.quot (Time_Sub T s) d) = k).
  { rewrite Hsub, Z.quot_mul by lia. apply wrap64_id.
    unfold in_int64, minInt64, maxInt64 in *. nia. }
  assert (Hnz : d <> 0) by lia.
  pose proof (int64_div_Ok (Time_Sub T s) d Hnz) as Hdiv. rewrite Hq in Hdiv.
  exists k.
  destruct (Z.le_gt_cases 1 k) as [H1|H1].
  - destruct (advance_rotation_observed now c k Hsize Lc Lp Hdiv H1)
      as (c1 & Ha & Hc1 & Hc2 & Hp1 & Hp2).
    destruct (advance_frame _ _ _ Ha) as (Hsz & _ & _ & _ & L1 & L2 & _).
    exists c1.
    refine (conj Ha (conj Hsz (conj (L1 Lc) (conj (L2 Lp) (conj Hk0
              (conj HT (conj Hc1 (conj _ _)))))))).
    + intros E. lia.
    + intros _. auto.
  - exists c. assert (E : k = 0) by lia.
    assert (Hlt : k < 1) by lia.
    pose proof (advance_below_one now c k Hdiv Hlt) as Ha.
    refine (conj Ha (conj eq_refl (conj Lc (conj Lp (conj Hk0
              (conj HT (conj _ (conj _ _)))))))).
    + fold s. lia.
    + reflexivity.
    + intros H. lia.
Qed.

Section Reads.
Context {P : Platform}.

(** The value of [Count] is a function of what is observed after
    [advance]. *)
Lemma Count_observed (now : Time) (c c1 c' c1' : Counter) :
  advance now c = Ok c1 -> advance now c' = Ok c1' ->
  size c1 = size c1' ->
  Start (curr c1) = Start (curr c1') ->
  Count (curr c1) = Count (curr c1') ->
  Count (prev c1) = Count (prev c1') ->
  exists v : int64,
    Counter_Count now c = Ok (v, c1) /\ Counter_Count now c' = Ok (v, c1').
Proof.
  intros Ha Ha' Hs Hst Hc Hp. unfold Counter_Count.
  rewrite Ha, Ha'. cbn [bind]. rewrite Hs, Hst, Hc, Hp.
  eexists. split; reflexivity.
Qed.

(** X13.  A [Count] at an earlier instant does not change what a later
    [Count] returns nor what it leaves to be observed: for
    [curr.start <= now1 <= now2], [Count(now2)] after [Count(now1)] and
    [Count(now2)] alone return the same value and leave the same starts and
    counts. *)
Theorem Count_after_earlier_Count (now1 now2 : Time) (c : Counter) :
  0 < size c <= maxInt64 ->
  lawful (curr c) -> lawful (prev c) ->
  Start (curr c) mod size c = 0 ->
  Start (curr c) <= now1 -> now1 <= now2 ->
  now2 - Start (curr c) <= maxInt64 ->
  exists (v1 v2 : int64) (c1 c2 c2' : Counter),
    Counter_Count now1 c = Ok (v1, c1) /\
    Counter_Count now2 c1 = Ok (v2, c2) /\
    Counter_Count now2 c = Ok (v2, c2') /\
    Start (curr c2) = Start (curr c2') /\
    Count (curr c2) = Count (curr c2') /\
    Start (prev c2) = Start (prev c2') /\
    Count (prev c2) = Count (prev c2').
Proof.
  intros Hsize Lc Lp Hal H1 H12 Hfit.
  destruct (advance_observed now1 c Hsize Lc Lp Hal H1 ltac:(lia))
    as (k1 & c1 & Ha1 & Hs1 & Lc1 & Lp1 & Hk1 & HT1 & Hst1 & Hz1 & Hr1).
  destruct (Time_Truncate_aligned now1 (size c) ltac:(lia)) as [HT1al HT1in].
  destruct (Time_Truncate_aligned now2 (size c) ltac:(lia)) as [HT2al HT2in].
  assert (Hsz1 : 0 < size c1 <= maxInt64) by (rewrite Hs1; exact Hsize).
  assert (Hal1 : Start (curr c1) mod size c1 = 0)
    by (rewrite Hst1, Hs1; exact HT1al).
  destruct (advance_observed now2 c1 Hsz1 Lc1 Lp1 Hal1
              ltac:(rewrite Hst1; lia) ltac:(rewrite Hst1; nia))
    as (k12 & c2 & Ha12 & Hs12 & _ & _ & Hk12 & HT12 & Hst12 & Hz12 & Hr12).
  destruct (advance_observed now2 c Hsize Lc Lp Hal ltac:(lia) Hfit)
    as (k2 & c2' & Ha2 & Hs2 & _ & _ & Hk2 & HT2 & Hst2 & Hz2 & Hr2).
  rewrite Hs1, Hst1 in *.
  assert (Hk : k2 = k1 + k12) by nia.
  assert (Hobs : Start (curr c2) = Start (curr c2') /\
                 Count (curr c2) = Count (curr c2') /\
                 Start (prev c2) = Start (prev c2') /\
                 Count (prev c2) = Count (prev c2')).
  { destruct (Z.eq_dec k1 0) as [E1|E1].
    - rewrite (Hz1 E1) in *. rewrite Ha2 in Ha12.
      injection Ha12 as <-. auto.
    - destruct (Hr1 ltac:(lia)) as (Hc1 & Hp1s & Hp1c).
      destruct (Hr2 ltac:(lia)) as (Hc2 & Hp2s & Hp2c).
      destruct (Z.eq_dec k12 0) as [E12|E12].
      + pose proof (Hz12 E12) as E. subst c2.
        assert (E2 : k2 = k1) by (rewrite Hk, E12; apply Z.add_0_r).
        rewrite E2 in *.
        assert (ET : Time_Truncate now2 (size c)
                     = Time_Truncate now1 (size c))
          by (rewrite HT2, HT1; reflexivity).
        rewrite Hc1, Hc2, Hp1s, Hp2s, Hp1c, Hp2c, Hst1, Hst2, ET.
        repeat split; reflexivity.
      + destruct (Hr12 ltac:(lia)) as (Hc12 & Hp12s & Hp12c).
        rewrite Hc12, Hc2, Hp12s, Hp2s, Hp12c, Hp2c, Hst12, Hst2, Hc1.
        destruct (Z.eqb_spec k2 1); [lia|].
        destruct (k12 =? 1); auto. }
  destruct (Count_observed now2 c1 c2 c c2' Ha12 Ha2
              ltac:(lia) (proj1 Hobs) (proj1 (proj2 Hobs))
              (proj2 (proj2 (proj2 Hobs)))) as (v2 & Hv2 & Hv2').
  eexists. exists v2, c1, c2, c2'.
  split; [unfold Counter_Count; rewrite Ha1; reflexivity|].
  split; [exact Hv2|]. split; [exact Hv2'|]. exact Hobs.
Qed.

End Reads.

(** ** Instances of the further properties *)

Lemma LocalWindow_count_laws : CountLaws LocalWindow LocalWindow_methods.
Proof. constructor; reflexivity. Qed.

Lemma LocalWindow_iface_counting (l : LocalWindow) :
  counting (LocalWindow_iface l).
Proof. exact LocalWindow_count_laws. Qed.

Lemma Size_is_constant_witness :
  exists c' : Counter,
    @run_calls amd64 [CallAddN (185 * Second) 2; CallCount (190 * Second)]
      (fst (fst (@NewCounter unit minute NewLocalWindow_factory Second)))
    = Ok c' /\
    Counter_Size c' = minute.
Proof.
  eexists. split; [reflexivity|].
  apply (@Size_is_constant amd64 unit minute NewLocalWindow_factory Second
           [CallAddN (185 * Second) 2; CallCount (190 * Second)]).
  reflexivity.
Defined.

Lemma AddN_raises_Count_witness :
  exists (v : int64) (c1 c2 : Counter),
    @Counter_Count amd64 (150 * Second)
      (local_counter (120 * Second) 10 (60 * Second) 4) = Ok (v, c1) /\
    Counter_AddN (150 * Second) 3
      (local_counter (120 * Second) 10 (60 * Second) 4) = Ok c2 /\
    @Counter_Count amd64 (150 * Second) c2 = Ok (int64_add v 3, c2).
Proof.
  apply (@AddN_raises_Count amd64).
  - apply LocalWindow_iface_lawful.
  - apply LocalWindow_iface_counting.
  - discriminate.
Defined.

Lemma negative_size_never_rotates_witness :
  advance (1000 * Second)
    (mkCounter (- minute) (LocalWindow_iface (mkLocalWindow 0 5))
       (LocalWindow_iface (mkLocalWindow 0 0)) 0 NilChan)
  = Ok (mkCounter (- minute) (LocalWindow_iface (mkLocalWindow 0 5))
          (LocalWindow_iface (mkLocalWindow 0 0)) 0 NilChan).
Proof.
  apply negative_size_never_rotates.
  - reflexivity.
  - discriminate.
Defined.

Lemma negative_size_rotates_backward_witness :
  exists c' : Counter,
    advance 0
      (mkCounter (- minute)
         (LocalWindow_iface (mkLocalWindow (120 * Second) 5))
         (LocalWindow_iface (mkLocalWindow 0 0)) 0 NilChan) = Ok c' /\
    Start (curr c') = 0 /\
    Start (prev c') = 0 - - minute /\
    Start (curr c') < Start (prev c').
Proof.
  apply (negative_size_rotates_backward 0
           (mkCounter (- minute)
              (LocalWindow_iface (mkLocalWindow (120 * Second) 5))
              (LocalWindow_iface (mkLocalWindow 0 0)) 0 NilChan)).
  - split; reflexivity.
  - apply LocalWindow_iface_lawful.
  - apply LocalWindow_iface_lawful.
  - split; [reflexivity|discriminate].
Defined.

Lemma weight_numerator_bounds_witness :
  0 <= Time_Sub (150 * Second) (120 * Second) < minute /\
  int64_sub minute (Time_Sub (150 * Second) (120 * Second)) = 30 * Second.
Proof.
  destruct (weight_numerator_bounds (150 * Second)
              (local_counter (120 * Second) 10 (60 * Second) 4)
              (local_counter (120 * Second) 10 (60 * Second) 4))
    as (_ & Hb & Hs & _).
  - split; [reflexivity|discriminate].
  - apply LocalWindow_iface_lawful.
  - reflexivity.
  - discriminate.
  - reflexivity.
  - split; [exact Hb|exact Hs].
Defined.


Lemma Sync_loop_frame_witness :
  exists c' : Counter,
    Counter_Sync Second [CaseTimer (61 * Second); CaseTimer (62 * Second)]
      (local_counter (120 * Second) 10 (60 * Second) 4)
    = Some (Running, c') /\
    prev c' = prev (local_counter (120 * Second) 10 (60 * Second) 4) /\
    Count (curr c') = 10.
Proof.
  eexists. split; [reflexivity|].
  destruct (Sync_loop_frame Second
              [CaseTimer (61 * Second); CaseTimer (62 * Second)]
              (local_counter (120 * Second) 10 (60 * Second) 4) _ Running
              eq_refl)
    as (_ & Hp & _ & _ & _ & _ & Hc).
  split; [exact Hp|].
  exact (Hc (LocalWindow_iface_counting _)).
Defined.

Lemma Count_without_previous_witness :
  @Counter_Count amd64 (150 * Second)
    (local_counter (120 * Second) 10 (60 * Second) 0)
  = Ok (10, local_counter (120 * Second) 10 (60 * Second) 0).
Proof.
  apply (@Count_without_previous amd64 (150 * Second)
           (local_counter (120 * Second) 10 (60 * Second) 0)
           (local_counter (120 * Second) 10 (60 * Second) 0)).
  - split; discriminate.
  - reflexivity.
  - reflexivity.
  - split; discriminate.
Defined.

Lemma Count_after_gap_witness :
  exists c1 : Counter,
    @Counter_Count amd64 (300 * Second)
      (local_counter (120 * Second) 10 (60 * Second) 4) = Ok (0, c1) /\
    Count (prev c1) = 0 /\ Count (curr c1) = 0.
Proof.
  apply (@Count_after_gap amd64 (300 * Second)
           (local_counter (120 * Second) 10 (60 * Second) 4) 3).
  - split; discriminate.
  - apply LocalWindow_iface_lawful.
  - apply LocalWindow_iface_lawful.
  - reflexivity.
  - reflexivity.
Defined.

Lemma new_counter_counts_zero_witness :
  exists c1 : Counter,
    @Counter_Count amd64 jan2027
      (fst (fst (@NewCounter unit minute NewLocalWindow_factory 0)))
    = Ok (0, c1).
Proof.
  apply (@new_counter_counts_zero amd64 unit minute NewLocalWindow_factory 0
           jan2027).
  - split; discriminate.
  - discriminate.
  - apply LocalWindow_iface_lawful.
  - reflexivity.
Defined.

Lemma Count_at_bucket_start_witness :
  @Counter_Count amd64 (120 * Second)
    (local_counter (120 * Second) 10 (60 * Second) 4)
  = Ok (14, local_counter (120 * Second) 10 (60 * Second) 4).
Proof.
  apply (@Count_at_bucket_start amd64 (120 * Second)
           (local_counter (120 * Second) 10 (60 * Second) 4)
           (local_counter (120 * Second) 10 (60 * Second) 4)).
  - split; discriminate.
  - reflexivity.
  - reflexivity.
  - reflexivity.
Defined.

Lemma Count_at_rollover_witness :
  exists c1 : Counter,
    @Counter_Count amd64 (120 * Second + minute)
      (local_counter (120 * Second) 10 (60 * Second) 4) = Ok (10, c1) /\
    Count (prev c1) = 10 /\ Count (curr c1) = 0 /\
    Start (curr c1) = 120 * Second + minute.
Proof.
  apply (@Count_at_rollover amd64
           (local_counter (120 * Second) 10 (60 * Second) 4)).
  - split; [reflexivity|discriminate].
  - apply LocalWindow_iface_lawful.
  - apply LocalWindow_iface_lawful.
  - reflexivity.
  - reflexivity.
Defined.

Lemma Count_after_earlier_Count_witness :
  exists (v1 v2 : int64) (c1 c2 c2' : Counter),
    @Counter_Count amd64 (190 * Second)
      (local_counter (120 * Second) 10 (60 * Second) 4) = Ok (v1, c1) /\
    @Counter_Count amd64 (250 * Second) c1 = Ok (v2, c2) /\
    @Counter_Count amd64 (250 * Second)
      (local_counter (120 * Second) 10 (60 * Second) 4) = Ok (v2, c2') /\
    Start (curr c2) = Start (curr c2') /\
    Count (curr c2) = Count (curr c2') /\
    Start (prev c2) = Start (prev c2') /\
    Count (prev c2) = Count (prev c2').
Proof.
  apply (@Count_after_earlier_Count amd64 (190 * Second) (250 * Second)
           (local_counter (120 * Second) 10 (60 * Second) 4)).
  - split; [reflexivity|discriminate].
  - apply LocalWindow_iface_lawful.
  - apply LocalWindow_iface_lawful.
  - reflexivity.
  - discriminate.
  - discriminate.
  - discriminate.
Defined.

(** ** The weighted term against the exact quotient *)

Lemma Zdigits2_bounds (m : Z) :
  0 < m -> 2 ^ (Zdigits2 m - 1) <= m < 2 ^ Zdigits2 m.
Proof.
  intros H. destruct m as [|p|p]; try lia. apply digits2_pos_bounds.
Qed.

Lemma Zdigits2_between (m d : Z) :
  1 <= d -> 2 ^ (d - 1) <= m < 2 ^ d -> Zdigits2 m = d.
Proof.
  intros Hd [Hlo Hhi].
  assert (Hm : 0 < m).
  { assert (0 < 2 ^ (d - 1)) by (apply Z.pow_pos_nonneg; lia). lia. }
  destruct (Zdigits2_bounds m Hm) as [Hlo' Hhi'].
  pose proof (Zdigits2_nonneg m) as Hn.
  destruct (Z.lt_trichotomy (Zdigits2 m) d) as [Hlt|[Heq|Hgt]];
    [exfalso|exact Heq|exfalso].
  - assert (2 ^ Zdigits2 m <= 2 ^ (d - 1)) by (apply Z.pow_le_mono_r; lia).
    lia.
  - assert (2 ^ d <= 2 ^ (Zdigits2 m - 1)) by (apply Z.pow_le_mono_r; lia).
    lia.
Qed.

(** Rounding a mantissa of at least 53 digits, in the normal range: a
    finite float of 53 digits, within one unit in the last place of the
    mantissa. *)
Lemma binary_round_aux_error (s : bool) (mx ex : Z) (lx : location) :
  2 ^ 52 <= mx -> Zdigits2 mx + ex <= 1023 -> - 1021 <= ex ->
  exists (m : positive) (e : Z),
    binary_round_aux prec emax s mx ex lx = S754_finite s m e /\
    ex <= e <= ex + Zdigits2 mx - 52 /\
    2 ^ 52 <= Z.pos m < 2 ^ 53 /\
    (Z.pos m - 1) * 2 ^ (e - ex) <= mx /\
    mx + 1 <= (Z.pos m + 1) * 2 ^ (e - ex).
Proof.
  intros Hmx Hfit Hex.
  assert (H52 : 0 < 2 ^ 52) by (apply Z.pow_pos_nonneg; lia).
  assert (Hpos : 0 < mx) by lia.
  destruct (Zdigits2_bounds mx Hpos) as [Hdlo Hdhi].
  set (dx := Zdigits2 mx) in *.
  assert (Hdx : 53 <= dx).
  { destruct (Z.le_gt_cases 53 dx) as [|Hlt]; [assumption|exfalso].
    assert (2 ^ dx <= 2 ^ 52)
      by (apply Z.pow_le_mono_r; [lia|]; pose proof (Zdigits2_nonneg mx); lia).
    lia. }
  unfold binary_round_aux.
  assert (Hmx0 : 0 <= mx) by lia.
  destruct (shr_fexp_spec mx ex lx Hmx0) as [Hm1 He1].
  destruct (shr_fexp prec emax mx ex lx) as [mrs1 e1]. cbn [fst snd] in *.
  rewrite fexp_eq in Hm1, He1. fold dx in Hm1, He1.
  replace (Z.max 0 (Z.max (dx + ex - 53) (- 1074) - ex)) with (dx - 53)
    in Hm1, He1 by lia.
  set (k1 := dx - 53) in *.
  assert (Hk1 : 0 <= k1) by (subst k1; lia).
  assert (Hp1 : 0 < 2 ^ k1) by (apply Z.pow_pos_nonneg; lia).
  assert (Hsplit : 2 ^ (dx - 1) = 2 ^ k1 * 2 ^ 52).
  { rewrite <- Z.pow_add_r by lia. f_equal. subst k1. lia. }
  assert (Hsplit' : 2 ^ dx = 2 ^ k1 * 2 ^ 53).
  { rewrite <- Z.pow_add_r by lia. f_equal. subst k1. lia. }
  set (m1 := shr_m mrs1) in *.
  assert (Heuc : m1 * 2 ^ k1 <= mx < (m1 + 1) * 2 ^ k1).
  { rewrite Hm1. pose proof (Z.mul_div_le mx (2 ^ k1) Hp1).
    pose proof (Z.mul_succ_div_gt mx (2 ^ k1) Hp1). lia. }
  assert (Hm1b : 2 ^ 52 <= m1 < 2 ^ 53) by nia.
  pose proof (round_nearest_even_bounds m1 (loc_of_shr_record mrs1)) as Hr.
  set (m2 := round_nearest_even m1 (loc_of_shr_record mrs1)) in *.
  assert (Hm20 : 0 <= m2) by lia.
  destruct (shr_fexp_spec m2 e1 loc_Exact Hm20) as [Hm3 He3].
  destruct (shr_fexp prec emax m2 e1 loc_Exact) as [mrs2 e2].
  cbn [fst snd] in *. rewrite fexp_eq in Hm3, He3.
  assert (H53 : 2 ^ 53 = 2 * 2 ^ 52) by reflexivity.
  destruct (Z.eq_dec m2 (2 ^ 53)) as [E2|N2].
  - (* the rounding carried into a 54th digit *)
    assert (Hd2 : Zdigits2 m2 = 54) by (rewrite E2; reflexivity).
    rewrite Hd2 in Hm3, He3.
    replace (Z.max 0 (Z.max (54 + e1 - 53) (- 1074) - e1)) with 1
      in Hm3, He3 by lia.
    rewrite E2 in Hm3. change (2 ^ 53 / 2 ^ 1) with (2 ^ 52) in Hm3.
    rewrite Hm3. change (2 ^ 52) with (Z.pos 4503599627370496).
    cbv iota. change (emax - prec) with 971.
    destruct (Z.leb_spec e2 971); [|lia].
    exists 4503599627370496%positive, e2.
    split; [reflexivity|]. split; [lia|].
    change (Z.pos 4503599627370496) with (2 ^ 52).
    split; [lia|].
    replace (e2 - ex) with (k1 + 1) by lia.
    rewrite Z.pow_add_r by lia. change (2 ^ 1) with 2. nia.
  - assert (Hd2 : Zdigits2 m2 = 53)
      by (apply Zdigits2_between; [lia|]; change (53 - 1) with 52; lia).
    rewrite Hd2 in Hm3, He3.
    replace (Z.max 0 (Z.max (53 + e1 - 53) (- 1074) - e1)) with 0
      in Hm3, He3 by lia.
    change (2 ^ 0) with 1 in Hm3. rewrite Z.div_1_r in Hm3.
    rewrite Hm3.
    destruct m2 as [|p2|p2]; try lia.
    change (emax - prec) with 971.
    destruct (Z.leb_spec e2 971); [|lia].
    exists p2, e2. split; [reflexivity|]. split; [lia|].
    split; [lia|].
    replace (e2 - ex) with k1 by lia. nia.
Qed.

(** The conversion of a positive integer below [2 ^ 53]: the integer,
    shifted left to 53 digits. *)
Lemma int64_to_float64_exact_pos (x : int64) :
  0 < x < 2 ^ 53 ->
  exists (m : positive) (n : Z),
    int64_to_float64 x = S754_finite false m (- n) /\
    0 <= n <= 52 /\
    2 ^ 52 <= Z.pos m < 2 ^ 53 /\
    Z.pos m = x * 2 ^ n.
Proof.
  intros Hx. destruct x as [|p|p]; try lia.
  unfold int64_to_float64, binary_normalize, binary_round, shl_align.
  rewrite fexp_eq.
  destruct (digits2_pos_bounds p) as [Hlo Hhi].
  set (d := Z.pos (digits2_pos p)) in *.
  assert (Hd : 1 <= d <= 53).
  { split; [subst d; lia|].
    destruct (Z.le_gt_cases d 53) as [|Hgt]; [assumption|].
    assert (2 ^ 53 <= 2 ^ (d - 1)) by (apply Z.pow_le_mono_r; lia). lia. }
  replace (Z.max (d + 0 - 53) (- 1074) - 0) with (d - 53) by lia.
  destruct (d - 53) as [|q|q] eqn:E; [|lia|].
  - exists p, 0.
    rewrite binary_round_aux_canonical by (fold d; lia).
    assert (d = 53) by lia.
    split; [reflexivity|]. split; [lia|].
    split; [|change (2 ^ 0) with 1; lia].
    split; [|lia]. replace 52 with (d - 1) by lia. exact Hlo.
  - replace (Z.max (d + 0 - 53) (- 1074)) with (Z.neg q) by lia.
    exists (Pos.iter xO p q), (Z.pos q).
    assert (Hdq : Z.pos (digits2_pos (Pos.iter xO p q)) = 53)
      by (rewrite digits2_pos_iter_xO; fold d; lia).
    rewrite binary_round_aux_canonical by (try exact Hdq; lia).
    split; [reflexivity|]. split; [lia|].
    split; [|apply Pos_iter_xO].
    pose proof (digits2_pos_bounds (Pos.iter xO p q)) as Hb.
    rewrite Hdq in Hb. exact Hb.
Qed.

(** The quotient of two floats of 53 digits: within one unit in the last
    place of the exact quotient. *)
Lemma float64_div_error (m1 m2 : positive) (n1 n2 : Z) :
  2 ^ 52 <= Z.pos m1 < 2 ^ 53 -> 2 ^ 52 <= Z.pos m2 < 2 ^ 53 ->
  0 <= n1 <= 52 -> 0 <= n2 <= 52 ->
  exists (mw : positive) (D : Z),
    float64_div (S754_finite false m1 (- n1)) (S754_finite false m2 (- n2))
    = S754_finite false mw (- n1 + n2 - 53 + D) /\
    0 <= D <= 2 /\
    2 ^ 52 <= Z.pos mw < 2 ^ 53 /\
    (Z.pos mw - 1) * (2 ^ D * Z.pos m2) <= Z.pos m1 * 2 ^ 53 /\
    Z.pos m1 * 2 ^ 53 < (Z.pos mw + 1) * (2 ^ D * Z.pos m2).
Proof.
  intros Hm1 Hm2 Hn1 Hn2.
  unfold float64_div, SFdiv, SFdiv_core_binary.
  rewrite (Zdigits2_between (Z.pos m1) 53) by (change (53 - 1) with 52; lia).
  rewrite (Zdigits2_between (Z.pos m2) 53) by (change (53 - 1) with 52; lia).
  rewrite fexp_eq.
  replace (Z.min (Z.max (53 + - n1 - (53 + - n2) - 53) (- 1074))
                 (- n1 - - n2))
    with (- n1 + n2 - 53) by lia.
  replace (- n1 - - n2 - (- n1 + n2 - 53)) with 53 by lia.
  cbv iota. rewrite Z.shiftl_mul_pow2 by lia.
  set (A := Z.pos m1 * 2 ^ 53).
  assert (Hq : Z.div_eucl A (Z.pos m2) = (A / Z.pos m2, A mod Z.pos m2)).
  { unfold Z.div, Z.modulo. destruct (Z.div_eucl A (Z.pos m2)). reflexivity. }
  rewrite Hq. set (q := A / Z.pos m2).
  assert (H53 : 2 ^ 53 = 2 * 2 ^ 52) by reflexivity.
  assert (H52 : 0 < 2 ^ 52) by (apply Z.pow_pos_nonneg; lia).
  assert (Heuc : q * Z.pos m2 <= A < (q + 1) * Z.pos m2).
  { subst q. pose proof (Z.mul_div_le A (Z.pos m2) ltac:(lia)).
    pose proof (Z.mul_succ_div_gt A (Z.pos m2) ltac:(lia)). lia. }
  assert (Hqb : 2 ^ 52 <= q < 2 ^ 54).
  { split.
    - apply Z.div_le_lower_bound; [lia|]. subst A. nia.
    - apply Z.div_lt_upper_bound; [lia|]. subst A.
      change (2 ^ 54) with (2 * 2 ^ 53). nia. }
  assert (Hdq : Zdigits2 q <= 54) by (apply Zdigits2_upper; lia).
  destruct (binary_round_aux_error (xorb false false) q (- n1 + n2 - 53)
              (new_location (Z.pos m2) (A mod Z.pos m2))
              ltac:(lia) ltac:(lia) ltac:(lia))
    as (mw & e & Hr & He & Hmw & Hlo & Hhi).
  exists mw, (e - (- n1 + n2 - 53)).
  replace (- n1 + n2 - 53 + (e - (- n1 + n2 - 53))) with e by lia.
  split; [exact Hr|]. split; [lia|]. split; [exact Hmw|].
  set (T := 2 ^ (e - (- n1 + n2 - 53))) in *.
  assert (HT : 0 < T) by (apply Z.pow_pos_nonneg; lia).
  split; nia.
Qed.

(** The product of two floats of 53 digits: within one unit in the last
    place of the exact product. *)
Lemma float64_mul_error (mw mp : positive) (ew np : Z) :
  2 ^ 52 <= Z.pos mw < 2 ^ 53 -> 2 ^ 52 <= Z.pos mp < 2 ^ 53 ->
  - 200 <= ew <= 200 -> 0 <= np <= 52 ->
  exists (my : positive) (D : Z),
    float64_mul (S754_finite false mw ew) (S754_finite false mp (- np))
    = S754_finite false my (ew - np + D) /\
    0 <= D /\
    2 ^ 52 <= Z.pos my < 2 ^ 53 /\
    (Z.pos my - 1) * 2 ^ D <= Z.pos mw * Z.pos mp /\
    Z.pos mw * Z.pos mp + 1 <= (Z.pos my + 1) * 2 ^ D.
Proof.
  intros Hmw Hmp Hew Hnp.
  unfold float64_mul, SFmul. rewrite Pos2Z.inj_mul.
  set (M := Z.pos mw * Z.pos mp).
  assert (H52 : 0 < 2 ^ 52) by (apply Z.pow_pos_nonneg; lia).
  assert (HM : 2 ^ 52 <= M < 2 ^ 106).
  { subst M. change (2 ^ 106) with (2 ^ 53 * 2 ^ 53). split; nia. }
  assert (HdM : Zdigits2 M <= 106) by (apply Zdigits2_upper; lia).
  destruct (binary_round_aux_error (xorb false false) M (ew + - np)
              loc_Exact ltac:(lia) ltac:(lia) ltac:(lia))
    as (my & e & Hr & He & Hmy & Hlo & Hhi).
  exists my, (e - (ew + - np)).
  replace (ew - np + (e - (ew + - np))) with e by lia.
  split; [exact Hr|]. split; [lia|]. split; [exact Hmy|].
  split; assumption.
Qed.

(** A shift by a difference of exponents, as a division. *)
Lemma shiftl_sub_div (m g h : Z) :
  0 <= g -> 0 <= h -> Z.shiftl m (g - h) = m * 2 ^ g / 2 ^ h.
Proof.
  intros Hg Hh.
  assert (Hpg : 0 < 2 ^ g) by (apply Z.pow_pos_nonneg; lia).
  assert (Hph : 0 < 2 ^ h) by (apply Z.pow_pos_nonneg; lia).
  destruct (Z.le_gt_cases h g) as [Hle|Hgt].
  - rewrite Z.shiftl_mul_pow2 by lia.
    replace g with ((g - h) + h) at 2 by lia.
    rewrite Z.pow_add_r by lia.
    rewrite Z.mul_assoc, Z.div_mul by lia. reflexivity.
  - rewrite Z.shiftl_div_pow2 by lia.
    replace h with ((h - g) + g) at 2 by lia.
    rewrite Z.pow_add_r by lia.
    rewrite Z.div_mul_cancel_r by lia. f_equal. f_equal. lia.
Qed.

(** The weighted term of [Count], against the exact quotient: for a
    numerator and a size below [2 ^ 53] and a count below [2 ^ 50] the
    float64 computation, truncated, is within 1 of the floor. *)
Lemma weighted_term_error (a b p : Z) :
  0 < a <= b -> b < 2 ^ 53 -> 0 <= p < 2 ^ 50 ->
  exists t : Z,
    float64_trunc
      (float64_mul (float64_div (int64_to_float64 a) (int64_to_float64 b))
                   (int64_to_float64 p)) = Some t /\
    0 <= t /\
    a * p / b - 1 <= t <= a * p / b + 1.
Proof.
  intros Hab Hb Hp.
  destruct (int64_to_float64_exact_pos a ltac:(lia))
    as (m1 & n1 & E1 & Hn1 & Hm1 & Va).
  destruct (int64_to_float64_exact_pos b ltac:(lia))
    as (m2 & n2 & E2 & Hn2 & Hm2 & Vb).
  rewrite E1, E2.
  destruct (float64_div_error m1 m2 n1 n2 Hm1 Hm2 Hn1 Hn2)
    as (mw & D1 & Ew & HD1 & Hmw & Hwlo & Hwhi).
  rewrite Ew.
  destruct (Z.eq_dec p 0) as [->|Hp0].
  { exists 0. split; [reflexivity|].
    rewrite Z.mul_0_r, Z.div_0_l by lia. lia. }
  assert (H50 : 2 ^ 50 < 2 ^ 53) by (apply Z.pow_lt_mono_r; lia).
  destruct (int64_to_float64_exact_pos p ltac:(lia))
    as (mp & np & Ep & Hnp & Hmp & Vp).
  rewrite Ep.
  destruct (float64_mul_error mw mp (- n1 + n2 - 53 + D1) np Hmw Hmp
              ltac:(lia) Hnp)
    as (my & D2 & Ey & HD2 & Hmy & Hylo & Hyhi).
  rewrite Ey. cbn [float64_trunc].
  eexists. split; [reflexivity|].
  (* the exact and the computed value over a common denominator *)
  set (X := 2 ^ D1 * Z.pos m2) in *.
  set (T := 2 ^ D2) in *.
  set (A := Z.pos m1 * 2 ^ 53) in *.
  assert (HX : 0 < X)
    by (subst X; apply Z.mul_pos_pos; [apply Z.pow_pos_nonneg|]; lia).
  assert (HT : 0 < T) by (subst T; apply Z.pow_pos_nonneg; lia).
  assert (H52 : 2 ^ 52 = 2 * 2 ^ 51) by reflexivity.
  assert (H51 : 0 < 2 ^ 51) by (apply Z.pow_pos_nonneg; lia).
  set (H := 2 ^ (n1 + 53 + np)).
  assert (HH : 0 < H) by (subst H; apply Z.pow_pos_nonneg; lia).
  set (Den := b * H).
  assert (HDen : 0 < Den) by (subst Den; apply Z.mul_pos_pos; lia).
  set (Yb := Z.pos my * (T * X)).
  set (Xb := A * Z.pos mp).
  set (U := T * X).
  set (V := X * Z.pos mp).
  assert (HU : 0 < U) by (subst U; apply Z.mul_pos_pos; lia).
  assert (HV : 0 < V) by (subst V; apply Z.mul_pos_pos; lia).
  assert (HXb : Xb = a * p * H).
  { subst Xb A H. rewrite Va, Vp.
    rewrite !Z.pow_add_r by lia. ring. }
  assert (HYb : Yb = Z.pos my * 2 ^ (D1 + D2 + n2) * b).
  { subst Yb T X. rewrite Vb. rewrite !Z.pow_add_r by lia. ring. }
  assert (Hup : Yb - U <= Xb + V).
  { subst Yb U Xb V.
    assert (S1 : (Z.pos my - 1) * T * X <= Z.pos mw * Z.pos mp * X)
      by (apply Z.mul_le_mono_nonneg_r; lia).
    assert (S2 : Z.pos mw * X * Z.pos mp <= (A + X) * Z.pos mp)
      by (apply Z.mul_le_mono_nonneg_r; lia).
    lia. }
  assert (Hdn : Xb - V < Yb + U).
  { subst Yb U Xb V.
    assert (S1 : Z.pos mw * Z.pos mp * X < (Z.pos my + 1) * T * X)
      by (apply Z.mul_lt_mono_pos_r; lia).
    assert (S2 : (A - X) * Z.pos mp <= Z.pos mw * X * Z.pos mp)
      by (apply Z.mul_le_mono_nonneg_r; lia).
    lia. }
  assert (HUr : 2 ^ 52 * U <= Yb)
    by (subst Yb; apply Z.mul_le_mono_nonneg_r; lia).
  assert (HVr : 2 ^ 51 * V <= Xb).
  { subst V Xb.
    assert (S0 : 2 ^ 51 * X <= (Z.pos mw - 1) * X)
      by (apply Z.mul_le_mono_nonneg_r; lia).
    assert (S1 : 2 ^ 51 * X <= A) by lia.
    assert (S2 : 2 ^ 51 * X * Z.pos mp <= A * Z.pos mp)
      by (apply Z.mul_le_mono_nonneg_r; lia).
    lia. }
  assert (HXbd : Xb <= (2 ^ 50 - 1) * Den).
  { rewrite HXb. subst Den.
    assert (S1 : a * p <= b * (2 ^ 50 - 1))
      by (apply Z.mul_le_mono_nonneg; lia).
    assert (S2 : a * p * H <= b * (2 ^ 50 - 1) * H)
      by (apply Z.mul_le_mono_nonneg_r; lia).
    lia. }
  assert (HXb0 : 0 <= Xb)
    by (rewrite HXb; repeat apply Z.mul_nonneg_nonneg; lia).
  assert (Hclose : Xb - Den < Yb < Xb + Den).
  { change (2 ^ 52) with 4503599627370496 in HUr.
    change (2 ^ 51) with 2251799813685248 in HVr.
    change (2 ^ 50) with 1125899906842624 in HXbd. lia. }
  (* both quotients over the common denominator *)
  assert (Ht : Z.shiftl (Z.pos my) (- n1 + n2 - 53 + D1 - np + D2)
               = Yb / Den).
  { replace (- n1 + n2 - 53 + D1 - np + D2)
      with ((D1 + D2 + n2) - (n1 + 53 + np)) by lia.
    rewrite shiftl_sub_div by lia. rewrite HYb. subst Den. fold H.
    rewrite (Z.mul_comm b H).
    symmetry. apply Z.div_mul_cancel_r; lia. }
  assert (HF : a * p / b = Xb / Den).
  { rewrite HXb. subst Den.
    symmetry. apply Z.div_mul_cancel_r; lia. }
  rewrite Ht, HF.
  assert (Hq1 : Yb / Den <= (Xb + Den) / Den)
    by (apply Z.div_le_mono; lia).
  assert (Hq2 : (Xb - Den) / Den <= Yb / Den)
    by (apply Z.div_le_mono; lia).
  replace (Xb + Den) with (Xb + 1 * Den) in Hq1 by lia.
  replace (Xb - Den) with (Xb + (- 1) * Den) in Hq2 by lia.
  rewrite Z.div_add in Hq1, Hq2 by lia.
  assert (Hy0 : 0 <= Yb / Den)
    by (apply Z.div_pos; [subst Yb; apply Z.mul_nonneg_nonneg; lia|lia]).
  lia.
Qed.

(** ** [Count] against the exact weighted term *)

Section WithinOne.
Context {P : Platform}.

(** C1, as the code has it.  [Count(now)] runs [advance] first and returns,
    on the counter [c1] that [advance] leaves, the weighted term plus
    [curr.Count()].  The weighted term is the [float64] product
    [float64(size - elapsed) / float64(size) * float64(prev.Count())],
    quotient and product each rounded to [float64], converted to an
    integer by truncation toward zero, not by rounding: whenever the
    truncated product fits [int64], the term is the quotient of the
    product's numerator by its denominator.  The term is not always
    [floor((size - elapsed) * prev.Count() / size)]: for a positive size
    below [2 ^ 53], [0 <= elapsed < size] and a previous count from 0 to
    below [2 ^ 50] it is not negative and within 1 of that floor. *)
Theorem Count_weighted_estimate_within_one (now : Time) (c : Counter) :
  size c <> 0 ->
  exists c1 : Counter,
    advance now c = Ok c1 /\
    let elapsed := Time_Sub now (Start (curr c1)) in
    let weight :=
      float64_div (int64_to_float64 (int64_sub (size c1) elapsed))
                  (int64_to_float64 (size c1)) in
    let product := float64_mul weight (int64_to_float64 (Count (prev c1))) in
    let exact := (size c1 - elapsed) * Count (prev c1) / size c1 in
    Counter_Count now c
    = Ok (int64_add (float64_to_int64 product) (Count (curr c1)), c1) /\
    (forall z : Z,
        float64_trunc product = Some z -> in_int64 z ->
        float64_to_int64 product = z /\
        z = Z.quot (float64_num product) (float64_den product)) /\
    (0 < size c1 < 2 ^ 53 -> 0 <= elapsed < size c1 ->
     0 <= Count (prev c1) < 2 ^ 50 ->
     float64_trunc product = Some (float64_to_int64 product) /\
     0 <= float64_to_int64 product /\
     exact - 1 <= float64_to_int64 product <= exact + 1).
Proof.
  intros Hsize.
  destruct (advance_total now c Hsize) as [c1 Ha].
  exists c1. split; [exact Ha|]. cbn zeta.
  split; [unfold Counter_Count; rewrite Ha; reflexivity|].
  split.
  { intros z Ht Hz.
    split; [apply float64_to_int64_fits; assumption|].
    apply float64_trunc_quot. exact Ht. }
  intros Hs He Hp.
  set (elapsed := Time_Sub now (Start (curr c1))) in *.
  assert (H53 : 2 ^ 53 < 2 ^ 63) by (apply Z.pow_lt_mono_r; lia).
  assert (H50 : 2 ^ 50 < 2 ^ 63) by (apply Z.pow_lt_mono_r; lia).
  assert (Hsub : int64_sub (size c1) elapsed = size c1 - elapsed).
  { unfold int64_sub. apply wrap64_id.
    unfold in_int64, minInt64, maxInt64. lia. }
  rewrite Hsub.
  destruct (weighted_term_error (size c1 - elapsed) (size c1)
              (Count (prev c1)) ltac:(lia) ltac:(lia) Hp)
    as (t & Ht & Ht0 & Hb).
  assert (Hexact : (size c1 - elapsed) * Count (prev c1) / size c1
                   <= Count (prev c1)).
  { apply Z.div_le_upper_bound; [lia|].
    apply Z.mul_le_mono_nonneg_r; lia. }
  assert (Hfit : float64_to_int64
                   (float64_mul
                      (float64_div (int64_to_float64 (size c1 - elapsed))
                                   (int64_to_float64 (size c1)))
                      (int64_to_float64 (Count (prev c1)))) = t).
  { apply float64_to_int64_fits; [exact Ht|].
    unfold in_int64, minInt64, maxInt64. lia. }
  rewrite Hfit. split; [exact Ht|]. split; [exact Ht0|exact Hb].
Qed.

End WithinOne.

Lemma Count_weighted_estimate_within_one_witness :
  exists c1 : Counter,
    @Counter_Count amd64 (136 * Second)
      (local_counter (120 * Second) 3 (60 * Second) 75) = Ok (57, c1) /\
    (minute - 16 * Second) * 75 / minute - 1 <= 54
    <= (minute - 16 * Second) * 75 / minute + 1.
Proof.
  destruct (@Count_weighted_estimate_within_one amd64 (136 * Second)
              (local_counter (120 * Second) 3 (60 * Second) 75))
    as (c1 & Ha & Hc & _ & Hb).
  - discriminate.
  - change (advance (136 * Second)
              (local_counter (120 * Second) 3 (60 * Second) 75))
      with (Ok (local_counter (120 * Second) 3 (60 * Second) 75)) in Ha.
    injection Ha as <-.
    exists (local_counter (120 * Second) 3 (60 * Second) 75).
    split.
    + rewrite Hc. apply (f_equal (fun v => Ok (v, _))).
      vm_compute. reflexivity.
    + destruct Hb as (_ & _ & Hb).
      * split; reflexivity.
      * split; [discriminate|reflexivity].
      * split; [discriminate|reflexivity].
      * change (float64_to_int64 _) with 54 in Hb. exact Hb.
Defined.

(** C1 as stated fails.  Size 60s, 16s into the current window, 75 events
    in the previous one and 3 in the current one: the exact weighted term
    is [floor(44/60 * 75) = 55]; in [float64] the weight is just below
    44/60 and the product just below 55, so [Count] returns [54 + 3],
    not [55 + 3]. *)
Lemma Count_is_not_the_exact_floor :
  exists (v : int64) (c1 : Counter),
    @Counter_Count amd64 (136 * Second)
      (local_counter (120 * Second) 3 (60 * Second) 75) = Ok (v, c1) /\
    let elapsed := Time_Sub (136 * Second) (Start (curr c1)) in
    elapsed = 16 * Second /\
    (size c1 - elapsed) * Count (prev c1) / size c1 + Count (curr c1)
    = 55 + 3 /\
    v = 54 + 3 /\
    v <> (size c1 - elapsed) * Count (prev c1) / size c1 + Count (curr c1).
Proof.
  exists 57, (local_counter (120 * Second) 3 (60 * Second) 75).
  split; [reflexivity|]. cbn zeta.
  split; [reflexivity|]. split; [reflexivity|]. split; [reflexivity|].
  discriminate.
Qed.
